(** * Sedecordle solver: pattern oracle, entropy scoring, board narrowing

    A shallow embedding of [SedecordleSolver.py].  Python strings are lists of
    characters, dictionaries with a default are finite maps read with a
    default, sets of letters are finite sets, and an [IndexError] is the
    [None] of an [option]. *)

From Stdlib Require Import Ascii String Reals Lra Floats.
From stdpp Require Import gmap strings list.

Local Open Scope nat_scope.

(** ** Words and feedback marks *)

Abbreviation word := (list ascii).

(** The entries of the list [pattern]: [''] before a position is decided,
    then ['C'], ['P'] or ['A']. *)
Inductive mark : Type := Blank | MC | MP | MA.

#[global] Instance mark_eq_dec : EqDecision mark.
Proof. solve_decision. Defined.

Abbreviation pattern := (list mark).

(** ** PatternOracle: [get_pattern] *)

Module Oracle.

(** [counts = defaultdict(int)]: a finite map read with default 0. *)
Definition count_of (counts : gmap ascii nat) (l : ascii) : nat :=
  default 0 (counts !! l).

(** [counts[l] += 1] *)
Definition bump (l : ascii) (counts : gmap ascii nat) : gmap ascii nat :=
  <[l := count_of counts l + 1]> counts.

(** [sum(1 for t in target if t == g)] *)
Definition total_in_target (g : ascii) (target : word) : nat :=
  length (filter (λ t, t = g) target).

(** [pattern[i] = m], raising when [i] is out of range. *)
Definition set_mark (i : nat) (m : mark) (pat : pattern) : option pattern :=
  if decide (i < length pat) then Some (<[i := m]> pat) else None.

(** First pass, [for i, (g, t) in enumerate(zip(guess, target))], started at
    index [i] on the remaining pairs. *)
Fixpoint first_pass (i : nat) (gts : list (ascii * ascii))
    (pat : pattern) (counts : gmap ascii nat)
    : option (pattern * gmap ascii nat) :=
  match gts with
  | [] => Some (pat, counts)
  | (g, t) :: rest =>
      if decide (g = t) then
        pat' ← set_mark i MC pat;
        first_pass (S i) rest pat' (bump t counts)
      else first_pass (S i) rest pat counts
  end.

(** Second pass, [for i, g in enumerate(guess)], started at index [i]. *)
Fixpoint second_pass (target : word) (i : nat) (gs : word)
    (pat : pattern) (counts : gmap ascii nat)
    : option (pattern * gmap ascii nat) :=
  match gs with
  | [] => Some (pat, counts)
  | g :: rest =>
      m ← pat !! i;
      if decide (m = MC) then second_pass target (S i) rest pat counts
      else if decide (count_of counts g < total_in_target g target) then
        pat' ← set_mark i MP pat;
        second_pass target (S i) rest pat' (bump g counts)
      else
        pat' ← set_mark i MA pat;
        second_pass target (S i) rest pat' counts
  end.

Definition get_pattern (guess target : word) : option pattern :=
  '(pat1, counts1) ← first_pass 0 (zip guess target) (replicate 5 Blank) ∅;
  '(pat2, _) ← second_pass target 0 guess pat1 counts1;
  Some pat2.

End Oracle.

(** ** PatternCache: [get_pattern_cached]

    [_pattern_cache] is one dictionary shared by every call, so the functions
    that use it thread it: a computation takes the cache and returns a result
    with the cache it leaves, or [None] when an exception ends the run. *)

Module Cache.

Abbreviation cache := (gmap (list ascii * list ascii) (list mark)).

Definition M (A : Type) : Type := cache → option (A * cache).

Definition ret {A} (a : A) : M A := λ c, Some (a, c).

Definition bind {A B} (m : M A) (k : A → M B) : M B :=
  λ c, match m c with
       | Some (a, c') => k a c'
       | None => None
       end.

Definition get_pattern_cached (guess target : word) : M pattern :=
  λ c, match c !! (guess, target) with
       | Some p => Some (p, c)
       | None =>
           match Oracle.get_pattern guess target with
           | Some p => Some (p, <[(guess, target) := p]> c)
           | None => None
           end
       end.

(** The cache left by a sequence of calls made on the initial, empty
    dictionary; a call that raises stores nothing. *)
Fixpoint cache_after (calls : list (word * word)) (c : cache) : cache :=
  match calls with
  | [] => c
  | (guess, target) :: rest =>
      match get_pattern_cached guess target c with
      | Some (_, c') => cache_after rest c'
      | None => cache_after rest c
      end
  end.

(** Every entry is what [get_pattern] computes for its key. *)
Definition sound (c : cache) : Prop :=
  ∀ guess target p, c !! (guess, target) = Some p →
    Oracle.get_pattern guess target = Some p.

End Cache.

#[global] Instance cache_ret : MRet Cache.M := @Cache.ret.
#[global] Instance cache_bind : MBind Cache.M := λ A B k m, Cache.bind m k.

(** Two calls in a row on the same pair, with both results. *)
Definition ask_twice (guess target : word) : Cache.M (pattern * pattern) :=
  p1 ← Cache.get_pattern_cached guess target;
  p2 ← Cache.get_pattern_cached guess target;
  mret (p1, p2).

(** ** BoardState *)

Record game : Type := Game {
  possible : list word;      (* game['possible'] *)
  correct : list ascii;      (* game['correct'], '?' where unknown *)
  present : gset ascii;      (* game['present'] *)
  absent : gset ascii        (* game['absent'] *)
}.

Definition unknown : ascii := "?"%char.

Definition new_game (answers : list word) : game :=
  Game answers (replicate 5 unknown) ∅ ∅.

(** [self.games]: sixteen boards, each with its own copy of the answers. *)
Definition new_session (answers : list word) : list game :=
  replicate 16 (new_game answers).

(** [if g['possible']] *)
Definition active (g : game) : bool :=
  match possible g with [] => false | _ :: _ => true end.

(** ** EntropyScorer: [calculate_entropy]

    Python floats are read as real numbers. *)

Module Entropy.

(** [pattern_counts[pattern] += 1] on a dictionary kept in insertion order. *)
Fixpoint tally (p : pattern) (pc : list (pattern * nat)) : list (pattern * nat) :=
  match pc with
  | [] => [(p, 0 + 1)]
  | (q, n) :: rest =>
      if decide (q = p) then (q, n + 1) :: rest else (q, n) :: tally p rest
  end.

(** [for possible in state['possible']] *)
Fixpoint count_patterns (wd : word) (candidates : list word)
    (pc : list (pattern * nat)) : Cache.M (list (pattern * nat)) :=
  match candidates with
  | [] => mret pc
  | cand :: rest =>
      p ← Cache.get_pattern_cached wd cand;
      count_patterns wd rest (tally p pc)
  end.

Definition log2 (x : R) : R := (ln x / ln 2)%R.

(** [-(count/total) * math.log2(count/total)] *)
Definition term (count total : nat) : R :=
  (- (INR count / INR total) * log2 (INR count / INR total))%R.

(** [sum(... for count in pattern_counts.values())] *)
Definition entropy_of (pc : list (pattern * nat)) (total : nat) : R :=
  fold_left (λ acc e, (acc + term e.2 total)%R) pc 0%R.

(** [for state in game_states], with the running [total_entropy]. *)
Fixpoint entropy_loop (wd : word) (game_states : list game)
    (total_entropy : R) : Cache.M R :=
  match game_states with
  | [] => mret total_entropy
  | state :: rest =>
      if active state then
        pc ← count_patterns wd (possible state) [];
        entropy_loop wd rest
          (total_entropy + entropy_of pc (length (possible state)))%R
      else entropy_loop wd rest total_entropy
  end.

Definition calculate_entropy (wd : word) (game_states : list game) : Cache.M R :=
  entropy_loop wd game_states 0%R.

End Entropy.

(** ** GuessSelector: [get_best_guess] *)

Module Selector.

(** [score > best_score]; [best_score] is [None] while it still is
    [-float('inf')], which every score exceeds. *)
Definition improves (score : R) (best_score : option R) : bool :=
  match best_score with
  | None => true
  | Some b => if Rlt_dec b score then true else false
  end.

(** [for word in candidates] *)
Fixpoint scan (active_games : list game) (candidates : list word)
    (best_word : option word) (best_score : option R) : Cache.M (option word) :=
  match candidates with
  | [] => mret best_word
  | wd :: rest =>
      score ← Entropy.calculate_entropy wd active_games;
      if improves score best_score
      then scan active_games rest (Some wd) (Some score)
      else scan active_games rest best_word best_score
  end.

Definition get_best_guess (allowed : list word) (games : list game)
    : Cache.M (option word) :=
  let active_games := filter (λ g, active g = true) games in
  match active_games with
  | [] => mret None
  | _ :: _ => scan active_games (take 2316 allowed) None None
  end.

End Selector.

(** ** BoardState narrowing: [update_games] and [clean_constraints] *)

Module Board.

(** [for i, (letter, color) in enumerate(feedback)] *)
Fixpoint record_feedback (i : nat) (feedback : list (ascii * ascii))
    (g : game) : option game :=
  match feedback with
  | [] => Some g
  | (letter, color) :: rest =>
      if decide (color = "C"%char) then
        if decide (i < length (correct g)) then
          record_feedback (S i) rest
            (Game (possible g) (<[i := letter]> (correct g))
                  (present g ∖ {[letter]}) (absent g))
        else None
      else if decide (color = "P"%char) then
        record_feedback (S i) rest
          (Game (possible g) (correct g) ({[letter]} ∪ present g) (absent g))
      else if decide (color = "A"%char) then
        record_feedback (S i) rest
          (Game (possible g) (correct g) (present g) ({[letter]} ∪ absent g))
      else record_feedback (S i) rest g
  end.

(** Check correct positions: [for i, c in enumerate(game['correct'])]. *)
Fixpoint matches_correct (i : nat) (cs : list ascii) (wd : word) : option bool :=
  match cs with
  | [] => Some true
  | c :: rest =>
      if decide (c = unknown) then matches_correct (S i) rest wd
      else
        x ← wd !! i;
        if decide (x = c) then matches_correct (S i) rest wd else Some false
  end.

(** [any(p not in word for p in game['present'])] *)
Definition misses_present (g : game) (wd : word) : bool :=
  bool_decide (set_Exists (λ p, p ∉ wd) (present g)).

(** [any(a in word for a in game['absent']
         if a not in game['correct'] and a not in game['present'])] *)
Definition hits_absent (g : game) (wd : word) : bool :=
  bool_decide (set_Exists
    (λ a, ((a ∉ correct g) ∧ (a ∉ present g)) ∧ a ∈ wd) (absent g)).

(** Prevent present letters in known positions:
    [for i, letter in enumerate(word)]. *)
Fixpoint avoids_present (g : game) (i : nat) (ls : word) : option bool :=
  match ls with
  | [] => Some true
  | l :: rest =>
      if decide (l ∈ present g) then
        c ← correct g !! i;
        if decide (l = c) then Some false else avoids_present g (S i) rest
      else avoids_present g (S i) rest
  end.

(** The body of [for word in game['possible']]: the final [valid]. *)
Definition keeps (g : game) (wd : word) : option bool :=
  valid ← matches_correct 0 (correct g) wd;
  let valid := valid && negb (misses_present g wd) in
  let valid := valid && negb (hits_absent g wd) in
  if valid then avoids_present g 0 wd else Some false.

(** [new_possible] *)
Fixpoint narrow (g : game) (words : list word) : option (list word) :=
  match words with
  | [] => Some []
  | wd :: rest =>
      valid ← keeps g wd;
      kept ← narrow g rest;
      Some (if valid : bool then wd :: kept else kept)
  end.

(** One round of the outer loop on one board with non-empty feedback. *)
Definition update_game (g : game) (feedback : list (ascii * ascii)) : option game :=
  g1 ← record_feedback 0 feedback g;
  new_possible ← narrow g1 (possible g1);
  Some (Game new_possible (correct g1) (present g1) (absent g1)).

(** [for game_idx, feedback in enumerate(feedbacks)] *)
Fixpoint update_from (game_idx : nat) (feedbacks : list (list (ascii * ascii)))
    (games : list game) : option (list game) :=
  match feedbacks with
  | [] => Some games
  | feedback :: rest =>
      match feedback with
      | [] => update_from (S game_idx) rest games
      | _ :: _ =>
          g ← games !! game_idx;
          g' ← update_game g feedback;
          update_from (S game_idx) rest (<[game_idx := g']> games)
      end
  end.

Definition update_games (games : list game)
    (feedbacks : list (list (ascii * ascii))) : option (list game) :=
  update_from 0 feedbacks games.

Definition clean_game (g : game) : game :=
  let present' := filter (λ p, p ∉ correct g) (present g) in
  Game (possible g) (correct g) present'
       (filter (λ a, (a ∉ correct g) ∧ (a ∉ present')) (absent g)).

Definition clean_constraints (games : list game) : list game :=
  clean_game <$> games.

End Board.

Definition w (s : string) : word := list_ascii_of_string s.

(** [list(zip(guess, fb))] as the prompt builds it. *)
Definition fb (guess colors : string) : list (ascii * ascii) :=
  zip (w guess) (w colors).


(** ** Measures used to state the pattern properties *)

(** Positions where guess and target agree. *)
Definition agreeing (guess target : word) : nat :=
  length (filter (λ gt, gt.1 = gt.2) (zip guess target)).

(** Occurrences of the mark [m] in a pattern. *)
Definition marked (m : mark) (pat : pattern) : nat :=
  length (filter (λ x, x = m) pat).

(** Positions of the guess that hold [l] and are marked Correct or Present. *)
Definition credited (l : ascii) (guess : word) (pat : pattern) : nat :=
  length (filter (λ gm, gm.1 = l ∧ (gm.2 = MC ∨ gm.2 = MP)) (zip guess pat)).

(** Positions holding [l] that the first pass already marked Correct. *)
Definition located (l : ascii) (gs : word) (pat : pattern) : nat :=
  length (filter (λ gm, gm.1 = l ∧ gm.2 = MC) (zip gs pat)).

(** Pairs of the zip that agree on the letter [l]. *)
Definition agreeing_on (l : ascii) (gts : list (ascii * ascii)) : nat :=
  length (filter (λ gt, gt.1 = gt.2 ∧ gt.2 = l) gts).

(** The two passes without indices: the marks they write on the part of the
    pattern not yet visited, and the counters they leave. *)
Fixpoint first_marks (gts : list (ascii * ascii)) (pat : pattern) : pattern :=
  match gts, pat with
  | (g, t) :: gts', m :: pat' =>
      (if decide (g = t) then MC else m) :: first_marks gts' pat'
  | _, _ => pat
  end.

Fixpoint first_counts (gts : list (ascii * ascii)) (counts : gmap ascii nat)
    : gmap ascii nat :=
  match gts with
  | [] => counts
  | (g, t) :: gts' =>
      first_counts gts' (if decide (g = t) then Oracle.bump t counts else counts)
  end.

Fixpoint second_marks (target : word) (gs : word) (pat : pattern)
    (counts : gmap ascii nat) : pattern * gmap ascii nat :=
  match gs, pat with
  | g :: gs', m :: pat' =>
      if decide (m = MC) then
        let r := second_marks target gs' pat' counts in (MC :: r.1, r.2)
      else if decide (Oracle.count_of counts g < Oracle.total_in_target g target) then
        let r := second_marks target gs' pat' (Oracle.bump g counts) in (MP :: r.1, r.2)
      else
        let r := second_marks target gs' pat' counts in (MA :: r.1, r.2)
  | _, _ => (pat, counts)
  end.

(** ** Scores without the cache

    The same loops as [count_patterns] and [entropy_loop], on [get_pattern]
    itself: what the scorer returns on any cache whose entries are sound. *)

Fixpoint tallies (wd : word) (candidates : list word)
    (pc : list (pattern * nat)) : option (list (pattern * nat)) :=
  match candidates with
  | [] => Some pc
  | cand :: rest =>
      p ← Oracle.get_pattern wd cand;
      tallies wd rest (Entropy.tally p pc)
  end.

Fixpoint score_from (wd : word) (game_states : list game) (total_entropy : R)
    : option R :=
  match game_states with
  | [] => Some total_entropy
  | state :: rest =>
      if active state then
        pc ← tallies wd (possible state) [];
        score_from wd rest
          (total_entropy + Entropy.entropy_of pc (length (possible state)))%R
      else score_from wd rest total_entropy
  end.

Definition score (wd : word) (game_states : list game) : option R :=
  score_from wd game_states 0%R.

(** Sum of the counts of a tally. *)
Definition tally_total (pc : list (pattern * nat)) : nat := sum_list (pc.*2).

(** ** The four filtering rules, as the specification words them *)

Module Rules.

(** A letter recorded as correct at some position. *)
Definition recorded (g : game) (l : ascii) : Prop :=
  l ≠ unknown ∧ l ∈ correct g.

(** (a) the word matches every position with a recorded correct letter. *)
Definition rule_a (g : game) (wd : word) : Prop :=
  ∀ i c, correct g !! i = Some c → c ≠ unknown → wd !! i = Some c.

(** (b) every letter of [present] occurs somewhere in the word. *)
Definition rule_b (g : game) (wd : word) : Prop :=
  ∀ p, p ∈ present g → p ∈ wd.

(** (c) no letter of [absent] occurs in the word, unless it is also a
    recorded correct letter or in [present]. *)
Definition rule_c (g : game) (wd : word) : Prop :=
  ∀ a, a ∈ absent g → a ∈ wd → recorded g a ∨ a ∈ present g.

(** (d) no position of the word holds a letter that is in [present] and is
    the recorded correct letter of that position. *)
Definition rule_d (g : game) (wd : word) : Prop :=
  ∀ i l, wd !! i = Some l → l ∈ present g →
    ¬ (l ≠ unknown ∧ correct g !! i = Some l).

Definition consistent (g : game) (wd : word) : Prop :=
  rule_a g wd ∧ rule_b g wd ∧ rule_c g wd ∧ rule_d g wd.

(** The rules are decidable, so a list of words can be filtered by them. *)
#[global] Instance recorded_dec g l : Decision (recorded g l).
Proof. unfold recorded. apply _. Defined.

#[global] Instance rule_a_dec g wd : Decision (rule_a g wd).
Proof.
  refine (cast_if (decide (Forall
    (λ ic : nat * ascii, ic.2 ≠ unknown → wd !! ic.1 = Some ic.2)
    (imap pair (correct g))))); unfold rule_a; rewrite Forall_forall in *.
  - intros i c Hi Hc. apply (f (i, c)); [|done].
    apply elem_of_lookup_imap. eauto.
  - intros H. apply n. intros [i c] Hin Hc.
    apply elem_of_lookup_imap in Hin as (j & y & [= -> ->] & Hj). by apply H.
Defined.

#[global] Instance rule_b_dec g wd : Decision (rule_b g wd).
Proof.
  change (Decision (set_Forall (λ p, p ∈ wd) (present g))). apply _.
Defined.

#[global] Instance rule_c_dec g wd : Decision (rule_c g wd).
Proof.
  change (Decision (set_Forall
    (λ a, a ∈ wd → recorded g a ∨ a ∈ present g) (absent g))). apply _.
Defined.

#[global] Instance rule_d_dec g wd : Decision (rule_d g wd).
Proof.
  refine (cast_if (decide (Forall
    (λ il : nat * ascii, il.2 ∈ present g →
       ¬ (il.2 ≠ unknown ∧ correct g !! il.1 = Some il.2))
    (imap pair wd)))); unfold rule_d; rewrite Forall_forall in *.
  - intros i l Hi Hl. apply (f (i, l)); [|done].
    apply elem_of_lookup_imap. eauto.
  - intros H. apply n. intros [i l] Hin Hl.
    apply elem_of_lookup_imap in Hin as (j & y & [= -> ->] & Hj). by apply H.
Defined.

#[global] Instance consistent_dec g wd : Decision (consistent g wd).
Proof. unfold consistent. apply _. Defined.

End Rules.

(** Boards as the session builds them: five recorded positions and
    five-letter candidates. *)
Definition five_letter (g : game) : Prop :=
  length (correct g) = 5 ∧ Forall (λ wd : word, length wd = 5) (possible g).

(** No candidate contains the character that stands for an unknown position. *)
Definition lettered (g : game) : Prop :=
  Forall (λ wd : word, unknown ∉ wd) (possible g).

(** ** Further measures *)

(** Positions holding [l] that the first pass left undecided. *)
Definition unlocated (l : ascii) (gs : word) (pat : pattern) : nat :=
  length (filter (λ gm, gm.1 = l ∧ gm.2 ≠ MC) (zip gs pat)).

(** The scan of [get_best_guess] on [score], without the cache. *)
Fixpoint best_of (states : list game) (candidates : list word)
    (best_word : option word) (best_score : option R) : option (option word) :=
  match candidates with
  | [] => Some best_word
  | wd :: rest =>
      s ← score wd states;
      if Selector.improves s best_score
      then best_of states rest (Some wd) (Some s)
      else best_of states rest best_word best_score
  end.

(** The relation between a board and what an update leaves of it. *)
Definition narrowed (g g' : game) : Prop :=
  length (correct g') = length (correct g)
  ∧ possible g' `sublist_of` possible g.

(** The feedback that marks every letter of the guess Correct. *)
Definition correct_feedback (guess : word) : list (ascii * ascii) :=
  zip guess (w "CCCCC").

(** The letter a truthful player types for a mark. *)
Definition color (m : mark) : ascii :=
  match m with
  | MC => "C"%char
  | MP => "P"%char
  | MA => "A"%char
  | Blank => "_"%char
  end.

(** The feedback a truthful player gives on a guess whose pattern against the
    hidden answer is [pat]. *)
Definition feedback_of (guess : word) (pat : pattern) : list (ascii * ascii) :=
  zip guess (color <$> pat).

(** ** Reading the word lists: [load_valid_words] and [__init__]

    The text functions are those of Python on ASCII text; the properties
    below are stated for lines of characters below 128. *)

Module Text.

Definition ascii7 (c : ascii) : Prop := nat_of_ascii c < 128.

(** [str.isspace] on one character: tab to carriage return, the four
    separators 28 to 31, and the blank. *)
Definition is_space (c : ascii) : bool :=
  let n := nat_of_ascii c in
  ((9 <=? n) && (n <=? 13)) || ((28 <=? n) && (n <=? 32)).

Definition is_lower (c : ascii) : bool :=
  let n := nat_of_ascii c in (97 <=? n) && (n <=? 122).

Definition upper_char (c : ascii) : ascii :=
  if is_lower c then ascii_of_nat (nat_of_ascii c - 32) else c.

(** [s.upper()] *)
Definition upper (s : list ascii) : list ascii := upper_char <$> s.

Fixpoint lstrip (s : list ascii) : list ascii :=
  match s with
  | [] => []
  | c :: rest => if is_space c then lstrip rest else s
  end.

Definition rstrip (s : list ascii) : list ascii := reverse (lstrip (reverse s)).

(** [s.strip()] *)
Definition strip (s : list ascii) : list ascii := rstrip (lstrip s).

End Text.

(** [load_valid_words] on the content of the file, its lines, or on [None]
    when the file does not exist; the result is [None] when the function
    ends the program with [exit(1)]. *)
Definition load_valid_words (file : option (list (list ascii))) : option (list word) :=
  lines ← file;
  let words :=
    (λ line, Text.upper (Text.strip line))
      <$> filter (λ line, length (Text.strip line) = 5) lines in
  match words with
  | [] => None
  | _ :: _ => Some words
  end.

Record solver : Type := Solver {
  answers : list word;
  allowed : list word;
  games : list game
}.

(** [SedecordleSolver(answer_path, guess_path)]; [guess_file] is [None] when
    no guess path is given. *)
Definition init (answer_file : option (list (list ascii)))
    (guess_file : option (option (list (list ascii)))) : option solver :=
  answers ← load_valid_words answer_file;
  allowed ← match guess_file with
            | Some file => load_valid_words file
            | None => Some answers
            end;
  Some (Solver answers allowed (new_session answers)).

(** ** The prompt and the round loop: [get_feedback_input] and [main]

    What the player types is a list of lines, consumed one per prompt; the
    prompt raises ([None]) when the lines run out.  Printing is left out, and
    with it the arguments of the prompt that are only printed. *)

Module Driver.

(** One pass of the body of [while True]: [None] when the entry is refused,
    [Some None] for SOLVED, [Some (Some feedback)] otherwise. *)
Definition read_feedback (guess : word) (typed : list ascii)
    : option (option (list (ascii * ascii))) :=
  let fb := filter (λ c, c ≠ " "%char) (Text.upper typed) in
  if decide (fb = w "SOLVED") then Some None
  else if decide (length fb = 5 ∧ Forall (λ c, c ∈ w "CPA") fb)
       then Some (Some (zip guess fb))
       else None.

Fixpoint get_feedback_input (guess : word) (inputs : list (list ascii))
    : option (option (list (ascii * ascii)) * list (list ascii)) :=
  match inputs with
  | [] => None
  | typed :: rest =>
      match read_feedback guess typed with
      | Some r => Some (r, rest)
      | None => get_feedback_input guess rest
      end
  end.

(** [[i for i, g in enumerate(solver.games) if g['possible']]], from index
    [i] on. *)
Fixpoint active_from (i : nat) (games : list game) : list nat :=
  match games with
  | [] => []
  | g :: rest =>
      if active g then i :: active_from (S i) rest else active_from (S i) rest
  end.

(** [for idx, game_idx in enumerate(active_games, 1)] *)
Fixpoint collect (best_guess : word) (active_games : list nat)
    (games : list game) (all_feedbacks : list (list (ascii * ascii)))
    (inputs : list (list ascii))
    : option (list game * list (list (ascii * ascii)) * list (list ascii)) :=
  match active_games with
  | [] => Some (games, all_feedbacks, inputs)
  | game_idx :: rest =>
      '(feedback, inputs') ← get_feedback_input best_guess inputs;
      match feedback with
      | None =>
          g ← games !! game_idx;
          collect best_guess rest
            (<[game_idx := Game [] (correct g) (present g) (absent g)]> games)
            all_feedbacks inputs'
      | Some fb =>
          if decide (game_idx < length all_feedbacks)
          then collect best_guess rest games
                 (<[game_idx := fb]> all_feedbacks) inputs'
          else None
      end
  end.

(** A step that does not touch the cache. *)
Definition lift {A} (o : option A) : Cache.M A :=
  λ c, match o with Some a => Some (a, c) | None => None end.

(** One pass of the body of [for attempt in range(21)]: the flag tells
    whether the loop goes on. *)
Definition play_round (allowed : list word) (games : list game)
    (inputs : list (list ascii))
    : Cache.M (bool * list game * list (list ascii)) :=
  Cache.bind (Selector.get_best_guess allowed games) (λ best_guess,
    match best_guess with
    | None | Some [] => Cache.ret (false, games, inputs)
    | Some guess =>
        Cache.bind
          (lift (collect guess (active_from 0 games) games (replicate 16 []) inputs))
          (λ '(games1, all_feedbacks, inputs'),
             Cache.bind (lift (Board.update_games games1 all_feedbacks))
               (λ games2,
                  let games3 := Board.clean_constraints games2 in
                  Cache.ret (existsb active games3, games3, inputs')))
    end).

Fixpoint attempts (n : nat) (allowed : list word) (games : list game)
    (inputs : list (list ascii)) : Cache.M (list game * list (list ascii)) :=
  match n with
  | 0 => Cache.ret (games, inputs)
  | S n' =>
      Cache.bind (play_round allowed games inputs)
        (λ '(go_on, games', inputs'),
           if go_on : bool then attempts n' allowed games' inputs'
           else Cache.ret (games', inputs'))
  end.

(** [main], from the file that both paths name and what the player types,
    on the empty cache of a fresh process. *)
Definition main (file : option (list (list ascii))) (inputs : list (list ascii))
    : option (list game * list (list ascii)) :=
  s ← init file (Some file);
  fst <$> attempts 21 (allowed s) (games s) inputs ∅.

End Driver.

(** An entry the prompt accepts; whether it does is the same for every
    guess. *)
Definition accepted (typed : list ascii) : Prop :=
  is_Some (Driver.read_feedback [] typed).

(** The same relation, board by board. *)
Definition narrowed_all (games games' : list game) : Prop :=
  length games' = length games
  ∧ ∀ i g g', games !! i = Some g → games' !! i = Some g' → narrowed g g'.

(** ** [get_best_guess] on the scores as the machine holds them

    [calculate_entropy] returns a Python [float], a double, and line 111
    compares two doubles.  The loop of lines 101-116 is written here over
    any type of scores: [scorer] stands for [self.calculate_entropy],
    [gt a b] for [a > b] on its results and [neg_inf] for [-float('inf')].
    What [math.log2] and [sum] round to is the platform's and is left to
    [scorer]; the loop, the slice and the comparison are the code's. *)

Module Loop.
Section loop.

Context {V : Type}.
Variable gt : V → V → bool.
Variable neg_inf : V.
Variable scorer : word → list game → Cache.M V.

(** [for word in candidates] *)
Fixpoint scan_with (active_games : list game) (candidates : list word)
    (best_word : option word) (best_score : V) : Cache.M (option word) :=
  match candidates with
  | [] => mret best_word
  | wd :: rest =>
      score ← scorer wd active_games;
      if gt score best_score
      then scan_with active_games rest (Some wd) score
      else scan_with active_games rest best_word best_score
  end.

Definition get_best_guess_with (allowed : list word) (games : list game)
    : Cache.M (option word) :=
  let active_games := filter (λ g, active g = true) games in
  match active_games with
  | [] => mret None
  | _ :: _ => scan_with active_games (take 2316 allowed) None neg_inf
  end.



End loop.
End Loop.

(** Doubles: [a > b] and [-float('inf')]. *)
Definition double_gt (a b : float) : bool := PrimFloat.ltb b a.

Definition get_best_guess_double (scorer : word → list game → Cache.M float)
    : list word → list game → Cache.M (option word) :=
  Loop.get_best_guess_with double_gt neg_infinity scorer.


(** The reals of [Selector]: [None] is [-float('inf')]. *)
Definition real_gt (a b : option R) : bool :=
  match a with
  | Some x => Selector.improves x b
  | None => false
  end.

Definition real_scorer (wd : word) (game_states : list game)
    : Cache.M (option R) :=
  score ← Entropy.calculate_entropy wd game_states;
  mret (Some score).



(** Two words whose scores differ in the last bit of the double, and a
    scorer that returns them. *)
Definition score_low : float := 0x1.6ab2a55a9d8e4p+1%float.
Definition score_high : float := 0x1.6ab2a55a9d8e5p+1%float.

Definition close_pair : list word := [w "MQQQQ"; w "QQQQS"].

Definition close_scorer (wd : word) (_ : list game) : Cache.M float :=
  mret (if decide (wd = w "MQQQQ") then score_low else score_high).

Definition tied_scorer (wd : word) (_ : list game) : Cache.M float :=
  mret score_low.

(** ** A small session used in the examples *)

Definition sample_answers : list word :=
  [w "TRACE"; w "CRATE"; w "CRANE"; w "REACT"; w "EERIE"; w "ELATE"].

Definition sample_game : game := new_game sample_answers.

Definition sample_session : list game := new_session sample_answers.

(** Feedback on the guess CRANE for the first board only. *)
Definition sample_round : list (list (ascii * ascii)) :=
  fb "CRANE" "PCCAC" :: replicate 15 [].

(** [sample_game] after the feedback C P A A A on the guess EERIE. *)
Definition clashed_game : game :=
  Game sample_answers (w "E????") {[ "E"%char ]}
       ({[ "E"%char ]} ∪ ({[ "I"%char ]} ∪ ({[ "R"%char ]} ∪ ∅))).

(** A word file: five-letter lines in either case, with line ends, blanks
    and a line of another length. *)
Definition sample_lines : list (list ascii) :=
  [w "crane" ++ [ascii_of_nat 10]; w "  Trace " ++ [ascii_of_nat 10];
   w "toolong" ++ [ascii_of_nat 10]; w "REACT"].

(** What a player types in one round: SOLVED for the first board, then a
    feedback for each of the others. *)
Definition sample_inputs : list (list ascii) :=
  w "solved" :: replicate 15 (w "a a a a a").

(** The cache after one call. *)
Definition warm_cache : Cache.cache :=
  Cache.cache_after [(w "CRANE", w "TRACE")] ∅.

(** * Proofs *)

Section oracle_facts.

Import Oracle.

Ltac count_cases :=
  repeat case_decide; destruct_and?; subst;
  first [lia | congruence | exfalso; intuition congruence].

Lemma count_of_bump l k counts :
  count_of (bump k counts) l = count_of counts l + (if decide (k = l) then 1 else 0).
Proof.
  unfold bump, count_of. destruct (decide (k = l)) as [->|Hne].
  - rewrite lookup_insert_eq. simpl. lia.
  - rewrite lookup_insert_ne by done. lia.
Qed.

Lemma set_mark_app done m0 rest m :
  set_mark (length done) m (done ++ m0 :: rest) = Some (done ++ m :: rest).
Proof.
  unfold set_mark. rewrite decide_True.
  - f_equal. rewrite insert_app_r_alt by lia. by rewrite Nat.sub_diag.
  - rewrite length_app. simpl. lia.
Qed.

Lemma first_pass_marks gts : ∀ done rest counts,
  length gts ≤ length rest →
  first_pass (length done) gts (done ++ rest) counts
  = Some (done ++ first_marks gts rest, first_counts gts counts).
Proof.
  induction gts as [|[g t] gts IH]; intros done rest counts Hlen; simpl.
  - by destruct rest.
  - destruct rest as [|m rest]; simpl in Hlen; [lia|].
    specialize (IH (done ++ [if decide (g = t) then MC else m]) rest).
    rewrite length_app in IH. simpl in IH. rewrite Nat.add_1_r in IH.
    destruct (decide (g = t)) as [->|Hne].
    + rewrite set_mark_app. simpl. rewrite <- (assoc_L (++)) in IH. simpl in IH.
      rewrite IH by lia. by rewrite <- (assoc_L (++)).
    + rewrite <- (assoc_L (++)) in IH. simpl in IH.
      rewrite IH by lia. by rewrite <- (assoc_L (++)).
Qed.

Lemma second_pass_marks target gs : ∀ done rest counts,
  length gs ≤ length rest →
  second_pass target (length done) gs (done ++ rest) counts
  = Some (done ++ (second_marks target gs rest counts).1,
          (second_marks target gs rest counts).2).
Proof.
  induction gs as [|g gs IH]; intros done rest counts Hlen; simpl.
  - by destruct rest.
  - destruct rest as [|m rest]; simpl in Hlen; [lia|].
    rewrite lookup_app_r by lia. rewrite Nat.sub_diag. simpl.
    assert (Hstep : ∀ m' counts',
      second_pass target (S (length done)) gs (done ++ m' :: rest) counts'
      = Some (done ++ m' :: (second_marks target gs rest counts').1,
              (second_marks target gs rest counts').2)).
    { intros m' counts'. specialize (IH (done ++ [m']) rest counts').
      rewrite length_app in IH. simpl in IH. rewrite Nat.add_1_r in IH.
      rewrite <- !(assoc_L (++)) in IH. simpl in IH. apply IH. lia. }
    destruct (decide (m = MC)) as [->|Hm].
    + by rewrite Hstep.
    + destruct (decide (count_of counts g < total_in_target g target)).
      * rewrite set_mark_app. simpl. by rewrite Hstep.
      * rewrite set_mark_app. simpl. by rewrite Hstep.
Qed.

Lemma first_pass_from_start gts pat counts :
  length gts ≤ length pat →
  first_pass 0 gts pat counts = Some (first_marks gts pat, first_counts gts counts).
Proof. exact (first_pass_marks gts [] pat counts). Qed.

Lemma second_pass_from_start target gs pat counts :
  length gs ≤ length pat →
  second_pass target 0 gs pat counts = Some (second_marks target gs pat counts).
Proof.
  intros H. rewrite (surjective_pairing (second_marks target gs pat counts)).
  exact (second_pass_marks target gs [] pat counts H).
Qed.

Lemma first_marks_length gts : ∀ pat, length (first_marks gts pat) = length pat.
Proof.
  induction gts as [|[g t] gts IH]; intros [|m pat]; simpl; auto.
Qed.

Lemma second_marks_length target gs : ∀ pat counts,
  length (second_marks target gs pat counts).1 = length pat.
Proof.
  induction gs as [|g gs IH]; intros [|m pat] counts; simpl; auto.
  repeat case_decide; simpl; by rewrite IH.
Qed.

(** [get_pattern] succeeds on every guess of at most five letters, with the
    marks of the two index-free passes. *)
Lemma get_pattern_marks guess target :
  length guess ≤ 5 →
  get_pattern guess target
  = Some (second_marks target guess
            (first_marks (zip guess target) (replicate 5 Blank))
            (first_counts (zip guess target) ∅)).1.
Proof.
  intros Hlen. unfold get_pattern.
  rewrite first_pass_from_start.
  2:{ rewrite length_zip_with, length_replicate. lia. }
  simpl. rewrite second_pass_from_start.
  2:{ rewrite first_marks_length. simpl. lia. }
  simpl. by destruct (second_marks _ _ _ _).
Qed.

Lemma set_mark_length i m pat pat' :
  set_mark i m pat = Some pat' → length pat' = length pat.
Proof.
  unfold set_mark. case_decide; [|done]. intros [= <-]. apply length_insert.
Qed.

Lemma first_pass_length gts : ∀ i pat counts pat' counts',
  first_pass i gts pat counts = Some (pat', counts') → length pat' = length pat.
Proof.
  induction gts as [|[g t] gts IH]; intros i pat counts pat' counts'; simpl.
  - by intros [= <- _].
  - case_decide.
    + destruct (set_mark i MC pat) as [q|] eqn:Eq; simpl; [|done].
      intros Hr. apply IH in Hr. apply set_mark_length in Eq.
      by rewrite Hr, Eq.
    + apply IH.
Qed.

(** A guess longer than the pattern list makes the second pass raise. *)
Lemma second_pass_overrun target gs : ∀ i pat counts,
  i ≤ length pat → length pat < i + length gs →
  second_pass target i gs pat counts = None.
Proof.
  induction gs as [|g gs IH]; intros i pat counts Hi Hlen; simpl in *; [lia|].
  destruct (pat !! i) as [m|] eqn:Em; simpl; [|done].
  apply lookup_lt_Some in Em.
  repeat case_decide.
  - apply IH; lia.
  - destruct (set_mark i MP pat) as [q|] eqn:Eq; simpl; [|done].
    apply set_mark_length in Eq. apply IH; lia.
  - destruct (set_mark i MA pat) as [q|] eqn:Eq; simpl; [|done].
    apply set_mark_length in Eq. apply IH; lia.
Qed.

(** [get_pattern] raises exactly on guesses of more than five letters. *)
Lemma get_pattern_is_Some guess target :
  is_Some (get_pattern guess target) ↔ length guess ≤ 5.
Proof.
  split.
  - intros [pat H]. destruct (decide (length guess ≤ 5)) as [|Hlong]; [done|].
    exfalso. unfold get_pattern in H.
    destruct (first_pass 0 (zip guess target) (replicate 5 Blank) ∅)
      as [[pat1 c1]|] eqn:E1; simpl in H; [|done].
    apply first_pass_length in E1. rewrite length_replicate in E1.
    rewrite second_pass_overrun in H by lia. done.
  - intros Hlen. rewrite get_pattern_marks by done. eauto.
Qed.

Lemma get_pattern_length guess target pat :
  get_pattern guess target = Some pat → length pat = 5.
Proof.
  intros H. assert (length guess ≤ 5) as Hlen.
  { apply (get_pattern_is_Some guess target). eauto. }
  rewrite get_pattern_marks in H by done. injection H as <-.
  rewrite second_marks_length, first_marks_length. reflexivity.
Qed.

(** *** Counting marks *)

Lemma marked_cons m x pat :
  marked m (x :: pat) = (if decide (x = m) then 1 else 0) + marked m pat.
Proof. unfold marked. rewrite filter_cons. by case_decide. Qed.

Lemma credited_cons l g gs m pat :
  credited l (g :: gs) (m :: pat)
  = (if decide (g = l ∧ (m = MC ∨ m = MP)) then 1 else 0) + credited l gs pat.
Proof. unfold credited. simpl. rewrite filter_cons. simpl. by case_decide. Qed.

Lemma located_cons l g gs m pat :
  located l (g :: gs) (m :: pat)
  = (if decide (g = l ∧ m = MC) then 1 else 0) + located l gs pat.
Proof. unfold located. simpl. rewrite filter_cons. simpl. by case_decide. Qed.

Lemma agreeing_on_cons l g t gts :
  agreeing_on l ((g, t) :: gts)
  = (if decide (g = t ∧ t = l) then 1 else 0) + agreeing_on l gts.
Proof. unfold agreeing_on. rewrite filter_cons. simpl. by case_decide. Qed.

Lemma total_in_target_cons l t target :
  total_in_target l (t :: target)
  = (if decide (t = l) then 1 else 0) + total_in_target l target.
Proof. unfold total_in_target. rewrite filter_cons. by case_decide. Qed.

(** The second pass keeps every Correct mark and writes no new one. *)
Lemma second_marks_correct target gs : ∀ pat counts,
  marked MC (second_marks target gs pat counts).1 = marked MC pat.
Proof.
  induction gs as [|g gs IH]; intros [|m pat] counts; simpl; auto.
  repeat case_decide; simpl; rewrite !marked_cons, IH;
    repeat case_decide; congruence.
Qed.

(** On a pattern without Correct marks, the first pass writes one per
    agreeing position. *)
Lemma first_marks_correct gts : ∀ pat,
  length gts ≤ length pat → Forall (λ m, m ≠ MC) pat →
  marked MC (first_marks gts pat) = length (filter (λ gt, gt.1 = gt.2) gts).
Proof.
  induction gts as [|[g t] gts IH]; intros pat Hlen Hpat; simpl.
  - induction Hpat as [|m pat Hm _ IHp]; [done|].
    rewrite marked_cons, decide_False by done. apply IHp. simpl. lia.
  - destruct pat as [|m pat]; simpl in Hlen; [lia|].
    inversion Hpat as [|? ? Hm Hpat']; subst.
    rewrite marked_cons, filter_cons, IH by (done || lia). simpl.
    repeat case_decide; simpl; congruence.
Qed.

Lemma first_counts_agreeing l gts : ∀ counts,
  count_of (first_counts gts counts) l = count_of counts l + agreeing_on l gts.
Proof.
  induction gts as [|[g t] gts IH]; intros counts; simpl.
  - unfold agreeing_on. simpl. lia.
  - rewrite IH, agreeing_on_cons.
    destruct (decide (g = t)) as [->|Hne].
    + rewrite count_of_bump. count_cases.
    + rewrite decide_False by intuition. lia.
Qed.

Lemma located_none l gs : ∀ pat,
  Forall (λ m, m ≠ MC) pat → located l gs pat = 0.
Proof.
  induction gs as [|g gs IH]; intros pat Hpat; [reflexivity|].
  destruct Hpat as [|m pat Hm Hpat]; [reflexivity|].
  rewrite located_cons, IH by done. rewrite decide_False by intuition. done.
Qed.

Lemma first_marks_located l guess : ∀ target pat,
  length guess ≤ length pat → Forall (λ m, m ≠ MC) pat →
  located l guess (first_marks (zip guess target) pat)
  = agreeing_on l (zip guess target).
Proof.
  induction guess as [|g guess IH]; intros target pat Hlen Hpat; [done|].
  destruct target as [|t target].
  { simpl. by apply located_none. }
  destruct Hpat as [|m pat Hm Hpat]; simpl in Hlen; [lia|].
  simpl. rewrite located_cons, agreeing_on_cons, IH by (done || lia).
  count_cases.
Qed.

Lemma agreeing_on_le l guess : ∀ target,
  agreeing_on l (zip guess target) ≤ total_in_target l target.
Proof.
  induction guess as [|g guess IH]; intros [|t target]; simpl;
    try (unfold agreeing_on; simpl; lia).
  rewrite agreeing_on_cons, total_in_target_cons. specialize (IH target).
  count_cases.
Qed.

(** The counter of [l] grows by one for every Present mark the second pass
    writes on [l], and never passes the number of [l] in the target. *)
Lemma second_marks_credit target l gs : ∀ pat counts,
  let r := second_marks target gs pat counts in
  credited l gs r.1 + count_of counts l = count_of r.2 l + located l gs pat
  ∧ (count_of counts l ≤ total_in_target l target →
     count_of r.2 l ≤ total_in_target l target).
Proof.
  induction gs as [|g gs IH]; intros pat counts.
  { destruct pat; simpl; (split; [unfold credited, located; simpl; lia | done]). }
  destruct pat as [|m pat].
  { simpl. split; [unfold credited, located; simpl; lia | done]. }
  simpl. destruct (decide (m = MC)) as [->|Hm]; simpl.
  - destruct (IH pat counts) as [IH1 IH2].
    rewrite credited_cons, located_cons. split; [|done].
    count_cases.
  - destruct (decide (count_of counts g < total_in_target g target)) as [Hlt|Hge];
      simpl.
    + destruct (IH pat (bump g counts)) as [IH1 IH2].
      rewrite count_of_bump in IH1, IH2.
      rewrite credited_cons, located_cons. split.
      * count_cases.
      * intros Hle. apply IH2. case_decide; subst; lia.
    + destruct (IH pat counts) as [IH1 IH2].
      rewrite credited_cons, located_cons. split; [|done].
      count_cases.
Qed.

(** C1. For five-letter words [guess] and [target], [get_pattern] returns a
    pattern with exactly as many Correct marks as there are positions where
    the two words agree, and for every letter [l] the positions of the guess
    holding [l] that are marked Correct or Present are at most as many as the
    occurrences of [l] in the target. *)
Theorem get_pattern_counts (guess target : word) :
  length guess = 5 → length target = 5 →
  ∃ pat, get_pattern guess target = Some pat
    ∧ marked MC pat = agreeing guess target
    ∧ ∀ l, credited l guess pat ≤ total_in_target l target.
Proof.
  intros Hg Ht. eexists. split; [apply get_pattern_marks; lia|].
  assert (Forall (λ m, m ≠ MC) (replicate 5 Blank)) as Hblank.
  { apply Forall_replicate. done. }
  split.
  - rewrite second_marks_correct, first_marks_correct; [done| |done].
    rewrite length_zip_with, length_replicate. lia.
  - intros l.
    destruct (second_marks_credit target l guess
      (first_marks (zip guess target) (replicate 5 Blank))
      (first_counts (zip guess target) ∅)) as [H1 H2].
    rewrite first_marks_located in H1 by (done || (rewrite length_replicate; lia)).
    rewrite first_counts_agreeing in H1, H2.
    assert (count_of ∅ l = 0) as H0 by (unfold count_of; by rewrite lookup_empty).
    rewrite H0 in H1, H2.
    pose proof (agreeing_on_le l guess target). lia.
Qed.

Lemma get_pattern_counts_witness :
  ∃ pat, get_pattern (w "SPEED") (w "ERASE") = Some pat
    ∧ marked MC pat = agreeing (w "SPEED") (w "ERASE")
    ∧ ∀ l, credited l (w "SPEED") pat ≤ total_in_target l (w "ERASE").
Proof. apply (get_pattern_counts (w "SPEED") (w "ERASE")); reflexivity. Defined.

(** C2, as the code has it. [get_pattern] on guess CRANE and target TRACE
    returns (Present, Correct, Correct, Absent, Correct): A agrees with the
    target at its position and C occurs elsewhere in the target. *)
Theorem crane_trace :
  get_pattern (w "CRANE") (w "TRACE") = Some [MP; MC; MC; MA; MC].
Proof. vm_compute. reflexivity. Qed.

(** C2, as stated: the pattern is not (Absent, Correct, Present, Present,
    Correct). *)
Lemma crane_trace_not_as_stated :
  ∃ pat, get_pattern (w "CRANE") (w "TRACE") = Some pat
    ∧ pat ≠ [MA; MC; MP; MP; MC].
Proof. eexists. split; [vm_compute; reflexivity | discriminate]. Qed.

End oracle_facts.

Section cache_facts.

Import Oracle Cache.

Lemma sound_empty : sound ∅.
Proof. intros guess target p H. by rewrite lookup_empty in H. Qed.

Lemma cached_hit guess target c p :
  c !! (guess, target) = Some p → get_pattern_cached guess target c = Some (p, c).
Proof. intros H. unfold get_pattern_cached. by rewrite H. Qed.

(** A call either raises, leaving nothing behind, or returns a pattern and a
    cache that holds it under the pair asked. *)
Lemma cached_call guess target c :
  sound c →
  match get_pattern_cached guess target c with
  | Some (p, c') =>
      get_pattern guess target = Some p ∧ sound c' ∧ c' !! (guess, target) = Some p
  | None => get_pattern guess target = None
  end.
Proof.
  intros Hc. unfold get_pattern_cached.
  destruct (c !! (guess, target)) as [p|] eqn:Hhit; [by eauto|].
  destruct (get_pattern guess target) as [p|] eqn:Hp; [|done].
  split; [done|]. split; [|by rewrite lookup_insert_eq].
  intros g t q. destruct (decide ((guess, target) = (g, t))) as [[= <- <-]|Hne].
  - rewrite lookup_insert_eq. by intros [= <-].
  - rewrite lookup_insert_ne by done. apply Hc.
Qed.

Lemma cached_result guess target c :
  sound c → fst <$> get_pattern_cached guess target c = get_pattern guess target.
Proof.
  intros Hc. pose proof (cached_call guess target c Hc) as H.
  destruct (get_pattern_cached guess target c) as [[p c']|]; simpl.
  - by destruct H as [-> _].
  - done.
Qed.

Lemma cached_sound guess target c p c' :
  sound c → get_pattern_cached guess target c = Some (p, c') → sound c'.
Proof.
  intros Hc Hcall. pose proof (cached_call guess target c Hc) as H.
  rewrite Hcall in H. tauto.
Qed.

Lemma cache_after_sound calls : ∀ c, sound c → sound (cache_after calls c).
Proof.
  induction calls as [|[guess target] calls IH]; intros c Hc; simpl; [done|].
  destruct (get_pattern_cached guess target c) as [[p c']|] eqn:Hcall.
  - apply IH. by eapply cached_sound.
  - by apply IH.
Qed.

Lemma ask_twice_sound guess target c :
  sound c →
  fst <$> ask_twice guess target c = (λ p, (p, p)) <$> get_pattern guess target.
Proof.
  intros Hc. unfold ask_twice, mbind, cache_bind, bind.
  pose proof (cached_call guess target c Hc) as H.
  destruct (get_pattern_cached guess target c) as [[p c']|].
  - destruct H as (-> & _ & Hhit). by rewrite (cached_hit _ _ _ _ Hhit).
  - by rewrite H.
Qed.

(** C8. On the cache left by any sequence of earlier calls, the memoized
    computation returns what [get_pattern] returns for the same pair (and
    raises when it raises), and a second call on the same pair returns the
    same pattern as the first. *)
Theorem get_pattern_cached_agrees
    (calls : list (word * word)) (guess target : word) :
  fst <$> get_pattern_cached guess target (cache_after calls ∅)
  = get_pattern guess target
  ∧ fst <$> ask_twice guess target (cache_after calls ∅)
    = (λ p, (p, p)) <$> get_pattern guess target.
Proof.
  pose proof (cache_after_sound calls ∅ sound_empty) as Hc.
  split; [by apply cached_result | by apply ask_twice_sound].
Qed.

End cache_facts.

Section board_facts.

Import Board Rules.

(** *** The four checks against the four rules *)

Lemma matches_correct_spec (wd : word) cs : ∀ i,
  i + length cs ≤ length wd →
  ∃ b, matches_correct i cs wd = Some b
    ∧ (b = true ↔ ∀ j c, cs !! j = Some c → c ≠ unknown → wd !! (i + j) = Some c).
Proof.
  induction cs as [|c cs IH]; intros i Hlen; simpl in *.
  - exists true. split; [done|]. split; [|done]. intros _ j c. by rewrite lookup_nil.
  - destruct (IH (S i)) as (b & Hb & Hiff); [lia|].
    assert (Htail : (∀ j c', cs !! j = Some c' → c' ≠ unknown →
                       wd !! (S i + j) = Some c')
                    → wd !! i = Some c ∨ c = unknown
                    → ∀ j c', (c :: cs) !! j = Some c' → c' ≠ unknown →
                        wd !! (i + j) = Some c').
    { intros Hcs Hc [|j] c'; simpl.
      - intros [= <-] Hne. rewrite Nat.add_0_r. by destruct Hc.
      - intros Hj Hne. rewrite Nat.add_succ_r. by apply Hcs. }
    assert (Hhead : (∀ j c', (c :: cs) !! j = Some c' → c' ≠ unknown →
                       wd !! (i + j) = Some c')
                    → ∀ j c', cs !! j = Some c' → c' ≠ unknown →
                        wd !! (S i + j) = Some c').
    { intros H j c' Hj Hne. specialize (H (S j) c' Hj Hne).
      by rewrite Nat.add_succ_r in H. }
    destruct (decide (c = unknown)) as [Hc|Hc].
    + exists b. split; [done|]. rewrite Hiff. split; [|by apply Hhead].
      intros H. apply Htail; auto.
    + destruct (lookup_lt_is_Some_2 wd i) as [x Hx]; [lia|].
      rewrite Hx. simpl. destruct (decide (x = c)) as [->|Hxc].
      * exists b. split; [done|]. rewrite Hiff. split; [|by apply Hhead].
        intros H. apply Htail; auto.
      * exists false. split; [done|]. split; [done|]. intros H.
        specialize (H 0 c eq_refl Hc). rewrite Nat.add_0_r in H. congruence.
Qed.

Lemma matches_correct_rule_a g wd :
  length (correct g) ≤ length wd →
  ∃ b, matches_correct 0 (correct g) wd = Some b ∧ (b = true ↔ rule_a g wd).
Proof.
  intros Hlen. destruct (matches_correct_spec wd (correct g) 0) as (b & Hb & Hiff);
    [simpl; lia|].
  exists b. split; [done|]. rewrite Hiff. unfold rule_a. simpl. done.
Qed.

Lemma avoids_present_spec g ls : ∀ i,
  i + length ls ≤ length (correct g) →
  ∃ b, avoids_present g i ls = Some b
    ∧ (b = true ↔ ∀ j l, ls !! j = Some l → l ∈ present g →
                     correct g !! (i + j) ≠ Some l).
Proof.
  induction ls as [|l ls IH]; intros i Hlen; simpl in *.
  - exists true. split; [done|]. split; [|done]. intros _ j l. by rewrite lookup_nil.
  - destruct (IH (S i)) as (b & Hb & Hiff); [lia|].
    assert (Htail : (∀ j l', ls !! j = Some l' → l' ∈ present g →
                       correct g !! (S i + j) ≠ Some l')
                    → (l ∈ present g → correct g !! i ≠ Some l)
                    → ∀ j l', (l :: ls) !! j = Some l' → l' ∈ present g →
                        correct g !! (i + j) ≠ Some l').
    { intros Hls Hl [|j] l'; simpl.
      - intros [= <-] Hin. rewrite Nat.add_0_r. by apply Hl.
      - intros Hj Hin. rewrite Nat.add_succ_r. by apply Hls. }
    assert (Hhead : (∀ j l', (l :: ls) !! j = Some l' → l' ∈ present g →
                       correct g !! (i + j) ≠ Some l')
                    → ∀ j l', ls !! j = Some l' → l' ∈ present g →
                        correct g !! (S i + j) ≠ Some l').
    { intros H j l' Hj Hin. specialize (H (S j) l' Hj Hin).
      by rewrite Nat.add_succ_r in H. }
    destruct (decide (l ∈ present g)) as [Hin|Hout].
    + destruct (lookup_lt_is_Some_2 (correct g) i) as [c Hc]; [lia|].
      rewrite Hc. simpl. destruct (decide (l = c)) as [->|Hlc].
      * exists false. split; [done|]. split; [done|]. intros H.
        specialize (H 0 c eq_refl Hin). rewrite Nat.add_0_r in H. congruence.
      * exists b. split; [done|]. rewrite Hiff. split; [|by apply Hhead].
        intros H. apply Htail; [done|]. intros _. congruence.
    + exists b. split; [done|]. rewrite Hiff. split; [|by apply Hhead].
      intros H. apply Htail; [done|]. intros Hin. done.
Qed.

Lemma avoids_present_rule_d g wd :
  length wd ≤ length (correct g) → unknown ∉ wd →
  ∃ b, avoids_present g 0 wd = Some b ∧ (b = true ↔ rule_d g wd).
Proof.
  intros Hlen Hq. destruct (avoids_present_spec g wd 0) as (b & Hb & Hiff);
    [simpl; lia|].
  exists b. split; [done|]. rewrite Hiff. unfold rule_d. simpl. split.
  - intros H i l Hi Hin [_ Hc]. by apply (H i l).
  - intros H i l Hi Hin Hc. apply (H i l Hi Hin). split; [|done].
    intros ->. apply Hq. by eapply list_elem_of_lookup_2.
Qed.

Lemma misses_present_rule_b g wd : misses_present g wd = false ↔ rule_b g wd.
Proof.
  unfold misses_present, rule_b. rewrite bool_decide_eq_false. split.
  - intros H p Hp. destruct (decide (p ∈ wd)); [done|].
    exfalso. apply H. by exists p.
  - intros H (p & Hp & Hout). by apply Hout, H.
Qed.

Lemma hits_absent_rule_c g wd :
  unknown ∉ wd → hits_absent g wd = false ↔ rule_c g wd.
Proof.
  intros Hq. unfold hits_absent, rule_c, recorded.
  rewrite bool_decide_eq_false. split.
  - intros H a Ha Hin.
    destruct (decide (a ∈ present g)); [by right|]. left.
    split; [by intros ->|].
    destruct (decide (a ∈ correct g)); [done|].
    exfalso. apply H. by exists a.
  - intros H (a & Ha & [Hc Hp] & Hin).
    destruct (H a Ha Hin) as [[_ ?]|?]; done.
Qed.

End board_facts.

Section narrowing_facts.

Import Board Rules.

Lemma keeps_consistent g wd :
  length wd = length (correct g) → unknown ∉ wd →
  keeps g wd = Some (bool_decide (consistent g wd)).
Proof.
  intros Hlen Hq. unfold keeps.
  destruct (matches_correct_rule_a g wd) as (ba & -> & Ha); [lia|].
  destruct (avoids_present_rule_d g wd) as (bd & Hd & Hd'); [lia|done|].
  pose proof (misses_present_rule_b g wd) as Hb.
  pose proof (hits_absent_rule_c g wd Hq) as Hc.
  simpl. unfold consistent.
  destruct ba; simpl.
  2:{ f_equal. symmetry. apply bool_decide_eq_false. intros [Hra _].
      destruct Ha as [_ Ha]. by specialize (Ha Hra). }
  destruct (misses_present g wd); simpl.
  2:{ destruct (hits_absent g wd); simpl.
      - f_equal. symmetry. apply bool_decide_eq_false. intros (_ & _ & Hrc & _).
        destruct Hc as [_ Hc]. by specialize (Hc Hrc).
      - rewrite Hd. f_equal. destruct bd.
        + symmetry. apply bool_decide_eq_true. intuition.
        + symmetry. apply bool_decide_eq_false. intros (_ & _ & _ & Hrd).
          destruct Hd' as [_ Hd']. by specialize (Hd' Hrd). }
  f_equal. symmetry. apply bool_decide_eq_false. intros (_ & Hrb & _).
  destruct Hb as [_ Hb]. by specialize (Hb Hrb).
Qed.

Lemma keeps_total g wd :
  length wd = length (correct g) → is_Some (keeps g wd).
Proof.
  intros Hlen. unfold keeps.
  destruct (matches_correct_spec wd (correct g) 0) as (ba & Ha & _); [simpl; lia|].
  destruct (avoids_present_spec g wd 0) as (bd & Hd & _); [simpl; lia|].
  rewrite Ha. simpl. rewrite Hd. by case_match.
Qed.

Lemma narrow_filter g words :
  Forall (λ wd : word, length wd = length (correct g) ∧ unknown ∉ wd) words →
  narrow g words = Some (filter (consistent g) words).
Proof.
  induction 1 as [|wd words [Hlen Hq] _ IH]; simpl; [done|].
  rewrite keeps_consistent, IH by done. simpl. rewrite filter_cons.
  by destruct (decide (consistent g wd));
    [rewrite bool_decide_eq_true_2 | rewrite bool_decide_eq_false_2].
Qed.

Lemma narrow_sublist g words :
  Forall (λ wd : word, length wd = length (correct g)) words →
  ∃ kept, narrow g words = Some kept ∧ kept `sublist_of` words.
Proof.
  induction 1 as [|wd words Hlen _ (kept & IH & Hsub)]; simpl.
  - by exists [].
  - destruct (keeps_total g wd Hlen) as [b ->]. rewrite IH. simpl.
    destruct b; eexists; (split; [done|]); by constructor.
Qed.

(** *** Recording the feedback *)

Lemma record_feedback_frame fb : ∀ i g g1,
  record_feedback i fb g = Some g1 →
  possible g1 = possible g ∧ length (correct g1) = length (correct g).
Proof.
  induction fb as [|[l c] fb IH]; intros i g g1; simpl.
  - by intros [= <-].
  - repeat case_decide; try done; intros Hrec;
      apply IH in Hrec as [Hposs Hlen]; simpl in *;
      rewrite ?length_insert in Hlen; done.
Qed.

Lemma record_feedback_total fb : ∀ i g,
  i + length fb ≤ length (correct g) → is_Some (record_feedback i fb g).
Proof.
  induction fb as [|[l c] fb IH]; intros i g Hlen; simpl in *; [by eauto|].
  repeat case_decide; try lia; apply IH; simpl;
    rewrite ?length_insert; lia.
Qed.

Lemma five_letter_words g g1 :
  five_letter g → possible g1 = possible g →
  length (correct g1) = length (correct g) →
  Forall (λ wd : word, length wd = length (correct g1)) (possible g1).
Proof.
  intros [Hc Hw] -> ->. rewrite Hc. done.
Qed.

(** C3. On a board of five-letter candidates without the unknown marker,
    once the feedback is recorded the candidate list becomes exactly the old
    list filtered by the four rules (a)-(d) read on the updated constraints:
    a candidate is kept if and only if it satisfies all four. *)
Theorem update_game_filters (g : game) (feedback : list (ascii * ascii)) :
  five_letter g → lettered g → length feedback ≤ 5 →
  ∃ g1, record_feedback 0 feedback g = Some g1
    ∧ update_game g feedback
      = Some (Game (filter (consistent g1) (possible g))
                   (correct g1) (present g1) (absent g1)).
Proof.
  intros Hg Hq Hfb.
  destruct (record_feedback_total feedback 0 g) as [g1 H1].
  { destruct Hg as [-> _]. simpl. lia. }
  exists g1. split; [done|]. unfold update_game. rewrite H1. simpl.
  destruct (record_feedback_frame _ _ _ _ H1) as [Hp Hc].
  rewrite narrow_filter; [by rewrite Hp|].
  pose proof (five_letter_words g g1 Hg Hp Hc) as Hw.
  rewrite Hp in *. unfold lettered in Hq.
  rewrite Forall_forall in *. intros wd Hin. split; [by apply Hw | by apply Hq].
Qed.

(** *** One board, then all boards *)

Lemma update_game_shrinks g feedback :
  five_letter g → length feedback ≤ 5 →
  ∃ g', update_game g feedback = Some g' ∧ five_letter g'
    ∧ possible g' `sublist_of` possible g.
Proof.
  intros Hg Hfb.
  destruct (record_feedback_total feedback 0 g) as [g1 H1].
  { destruct Hg as [-> _]. simpl. lia. }
  destruct (record_feedback_frame _ _ _ _ H1) as [Hp Hc].
  destruct (narrow_sublist g1 (possible g1)) as (kept & Hk & Hsub).
  { by apply (five_letter_words g). }
  unfold update_game. rewrite H1. simpl. rewrite Hk. simpl.
  eexists. split; [done|]. rewrite Hp in Hsub. split; [|done].
  destruct Hg as [Hg5 Hw]. split; simpl; [congruence|].
  rewrite Forall_forall in *. intros wd Hin. apply Hw.
  by eapply elem_of_sublist.
Qed.

Lemma update_from_shrinks feedbacks : ∀ idx games,
  Forall five_letter games →
  Forall (λ feedback : list (ascii * ascii), length feedback ≤ 5) feedbacks →
  idx + length feedbacks ≤ length games →
  ∃ games', update_from idx feedbacks games = Some games'
    ∧ length games' = length games
    ∧ ∀ i g g', games !! i = Some g → games' !! i = Some g' →
        possible g' `sublist_of` possible g
        ∧ (i < idx ∨ feedbacks !! (i - idx) = Some [] → g' = g).
Proof.
  induction feedbacks as [|feedback rest IH]; intros idx games Hgames Hfbs Hlen.
  { exists games. split; [done|]. split; [done|].
    intros i g g' Hg Hg'. assert (g' = g) as -> by congruence. done. }
  apply Forall_cons in Hfbs as [Hfb Hrest]. simpl in Hlen.
  assert (Hshift : ∀ i, idx ≤ i → i ≠ idx →
            (feedback :: rest) !! (i - idx) = rest !! (i - S idx)).
  { intros i Hle Hne. replace (i - idx) with (S (i - S idx)) by lia. done. }
  destruct feedback as [|mark feedback].
  - simpl. destruct (IH (S idx) games) as (games' & Hrun & Hsize & Hall);
      [done|done|lia|].
    exists games'. split; [done|]. split; [done|].
    intros i g g' Hg Hg'. destruct (Hall i g g' Hg Hg') as [Hsub Hsame].
    split; [done|]. intros [Hlt|Hempty]; apply Hsame; [lia|].
    destruct (decide (i ≤ idx)); [left; lia|right].
    rewrite <- Hshift by lia. done.
  - simpl update_from.
    destruct (lookup_lt_is_Some_2 games idx) as [g0 Hg0]; [lia|].
    rewrite Hg0. simpl.
    destruct (update_game_shrinks g0 (mark :: feedback)) as (g0' & Hup & Hfive & Hsub0);
      [by eapply Forall_lookup_1|done|].
    rewrite Hup. simpl.
    destruct (IH (S idx) (<[idx := g0']> games)) as (games' & Hrun & Hsize & Hall).
    { apply Forall_insert; done. }
    { done. }
    { rewrite length_insert. lia. }
    rewrite length_insert in Hsize.
    exists games'. split; [done|]. split; [done|].
    intros i g g' Hg Hg'.
    destruct (decide (i = idx)) as [->|Hne].
    + assert (g = g0) as -> by congruence.
      destruct (Hall idx g0' g') as [Hsub Hsame]; [|done|].
      { apply list_lookup_insert_eq. by eapply lookup_lt_Some. }
      rewrite Hsame by lia. split; [done|].
      intros [Hlt|Hempty]; [lia|]. rewrite Nat.sub_diag in Hempty. done.
    + destruct (Hall i g g') as [Hsub Hsame]; [|done|].
      { by rewrite list_lookup_insert_ne. }
      split; [done|]. intros [Hlt|Hempty]; apply Hsame; [lia|].
      destruct (decide (i ≤ idx)); [left; lia|right].
      rewrite <- Hshift by lia. done.
Qed.

(** C4. On boards of five-letter candidates and feedback of at most five
    pairs per board, [update_games] returns, and in its result every board's
    candidate list is a sublist of what it was; a board whose feedback entry
    is empty is unchanged in all four fields. *)
Theorem update_games_monotone
    (games : list game) (feedbacks : list (list (ascii * ascii))) :
  Forall five_letter games →
  Forall (λ feedback : list (ascii * ascii), length feedback ≤ 5) feedbacks →
  length feedbacks ≤ length games →
  ∃ games', update_games games feedbacks = Some games'
    ∧ length games' = length games
    ∧ ∀ i g g', games !! i = Some g → games' !! i = Some g' →
        possible g' `sublist_of` possible g
        ∧ (feedbacks !! i = Some [] → g' = g).
Proof.
  intros Hgames Hfbs Hlen.
  destruct (update_from_shrinks feedbacks 0 games) as (games' & Hrun & Hsize & Hall);
    [done|done|simpl; lia|].
  exists games'. split; [done|]. split; [done|].
  intros i g g' Hg Hg'. destruct (Hall i g g' Hg Hg') as [Hsub Hsame].
  split; [done|]. intros Hempty. apply Hsame. right. by rewrite Nat.sub_0_r.
Qed.

(** *** A letter both recorded at a position and present *)

Lemma narrow_none g words :
  Forall (λ wd, keeps g wd = Some false) words → narrow g words = Some [].
Proof.
  induction 1 as [|wd words Hwd _ IH]; simpl; [done|]. by rewrite Hwd, IH.
Qed.

(** C10. When, after the feedback is recorded, some position [i] holds a
    recorded correct letter [l] that is also in [present], the filter leaves
    no candidate: a candidate with [l] at position [i] fails the
    present-letter guard, and any other fails the correct-position check. *)
Theorem clash_empties_board
    (g : game) (feedback : list (ascii * ascii)) (g1 : game) (i : nat) (l : ascii) :
  five_letter g →
  record_feedback 0 feedback g = Some g1 →
  correct g1 !! i = Some l → l ≠ unknown → l ∈ present g1 →
  update_game g feedback = Some (Game [] (correct g1) (present g1) (absent g1))
  ∧ ∀ wd, wd ∈ possible g →
      (wd !! i = Some l → avoids_present g1 0 wd = Some false)
      ∧ (wd !! i ≠ Some l → matches_correct 0 (correct g1) wd = Some false).
Proof.
  intros Hg H1 Hi Hl Hp.
  destruct (record_feedback_frame _ _ _ _ H1) as [Hposs Hc].
  pose proof (five_letter_words g g1 Hg Hposs Hc) as Hw. rewrite Hposs in Hw.
  rewrite Forall_forall in Hw.
  assert (Hguard : ∀ wd, wd ∈ possible g →
            wd !! i = Some l → avoids_present g1 0 wd = Some false).
  { intros wd Hin Hwd.
    destruct (avoids_present_spec g1 wd 0) as (b & Hb & Hiff).
    { simpl. rewrite (Hw wd Hin). lia. }
    rewrite Hb. destruct b; [|done]. exfalso.
    destruct Hiff as [Hiff _]. by apply (Hiff eq_refl i l Hwd Hp). }
  assert (Hcheck : ∀ wd, wd ∈ possible g →
            wd !! i ≠ Some l → matches_correct 0 (correct g1) wd = Some false).
  { intros wd Hin Hwd.
    destruct (matches_correct_spec wd (correct g1) 0) as (b & Hb & Hiff).
    { simpl. rewrite (Hw wd Hin). lia. }
    rewrite Hb. destruct b; [|done]. exfalso.
    destruct Hiff as [Hiff _]. by apply Hwd, (Hiff eq_refl i l Hi Hl). }
  split; [|by auto].
  unfold update_game. rewrite H1. simpl. rewrite Hposs.
  rewrite narrow_none; [done|].
  apply Forall_forall. intros wd Hin. unfold keeps.
  destruct (decide (wd !! i = Some l)) as [Hwd|Hwd].
  - destruct (keeps_total g1 wd) as [b Hb]; [by apply Hw|].
    unfold keeps in Hb. rewrite (Hguard wd Hin Hwd) in *.
    destruct (matches_correct 0 (correct g1) wd) as [ba|]; simpl in *; [|done].
    by repeat case_match.
  - by rewrite (Hcheck wd Hin Hwd).
Qed.

(** *** Constraint cleanup *)

Lemma clean_game_idemp g : clean_game (clean_game g) = clean_game g.
Proof.
  unfold clean_game. simpl.
  assert (filter (λ p, p ∉ correct g) (filter (λ p, p ∉ correct g) (present g))
          = filter (λ p, p ∉ correct g) (present g)) as Hpres.
  { apply set_eq. intros p. rewrite !elem_of_filter. tauto. }
  rewrite Hpres. f_equal.
  apply set_eq. intros a. rewrite !elem_of_filter. tauto.
Qed.

(** C9. [clean_constraints] applied twice gives the boards that one
    application gives: the same [present] and [absent] sets, with the other
    fields untouched. *)
Theorem clean_constraints_idempotent (games : list game) :
  clean_constraints (clean_constraints games) = clean_constraints games.
Proof.
  unfold clean_constraints. rewrite <- list_fmap_compose.
  apply list_fmap_ext. intros _ g _. apply clean_game_idemp.
Qed.

End narrowing_facts.

Section entropy_facts.

Import Oracle Cache Entropy.

Local Open Scope R_scope.

(** *** One term of the sum *)

Lemma ln_nonpos x : 0 < x → x <= 1 → ln x <= 0.
Proof.
  intros Hpos [Hlt| ->].
  - left. rewrite <- ln_1. by apply ln_increasing.
  - right. apply ln_1.
Qed.

Lemma ln_2_pos : 0 < ln 2.
Proof. pose proof ln_lt_2. lra. Qed.

Lemma log2_nonpos x : 0 < x → x <= 1 → log2 x <= 0.
Proof.
  intros Hpos Hle. unfold log2.
  pose proof (ln_nonpos x Hpos Hle). pose proof ln_2_pos as H2.
  apply Rmult_le_reg_r with (r := ln 2); [done|].
  unfold Rdiv. rewrite Rmult_assoc, Rinv_l by lra. lra.
Qed.

Lemma term_nonneg (count total : nat) :
  (1 ≤ count)%nat → (count ≤ total)%nat → 0 <= term count total.
Proof.
  intros H1 Hle. unfold term.
  assert (0 < INR count) as Hc by (apply lt_0_INR; lia).
  assert (0 < INR total) as Ht by (apply lt_0_INR; lia).
  assert (INR count <= INR total) as Hct by (by apply le_INR).
  assert (0 < INR count / INR total) as Hpos by (by apply Rdiv_lt_0_compat).
  assert (INR count / INR total <= 1) as Hone.
  { apply Rmult_le_reg_r with (r := INR total); [done|].
    unfold Rdiv. rewrite Rmult_assoc, Rinv_l by lra. lra. }
  pose proof (log2_nonpos _ Hpos Hone). nra.
Qed.

Lemma term_one : term 1 1 = 0.
Proof.
  unfold term, log2. simpl. replace (1 / 1) with 1 by lra. rewrite ln_1. lra.
Qed.

(** *** Tallies *)

Lemma tally_total_tally p pc : tally_total (tally p pc) = S (tally_total pc).
Proof.
  unfold tally_total. induction pc as [|[q n] pc IH]; csimpl; [done|].
  case_decide; csimpl; rewrite ?IH; lia.
Qed.

Lemma tally_positive p pc :
  Forall (λ e : pattern * nat, (1 ≤ e.2)%nat) pc →
  Forall (λ e : pattern * nat, (1 ≤ e.2)%nat) (tally p pc).
Proof.
  induction 1 as [|[q n] pc Hq Hpc IH]; simpl.
  - repeat constructor.
  - case_decide; constructor; simpl in *; (done || lia).
Qed.

Lemma tally_bounded (pc : list (pattern * nat)) :
  Forall (λ e : pattern * nat, (e.2 ≤ tally_total pc)%nat) pc.
Proof.
  unfold tally_total. induction pc as [|[q n] pc IH]; constructor; csimpl; [lia|].
  eapply Forall_impl; [exact IH|]. csimpl. intros e He. lia.
Qed.

Lemma entropy_of_from pc total : ∀ acc,
  Forall (λ e : pattern * nat, (1 ≤ e.2)%nat ∧ (e.2 ≤ total)%nat) pc →
  acc <= fold_left (λ a e, a + term e.2 total) pc acc.
Proof.
  induction pc as [|e pc IH]; intros acc Hpc; simpl; [lra|].
  apply Forall_cons in Hpc as [[H1 H2] Hpc].
  pose proof (term_nonneg _ _ H1 H2). specialize (IH (acc + term e.2 total) Hpc).
  lra.
Qed.

Lemma entropy_of_nonneg pc :
  Forall (λ e : pattern * nat, (1 ≤ e.2)%nat) pc →
  0 <= entropy_of pc (tally_total pc).
Proof.
  intros Hpos. apply entropy_of_from.
  pose proof (tally_bounded pc) as Hb. rewrite Forall_forall in *. auto.
Qed.

(** *** The monad of the cache *)

Lemma bind_Some {A B} (m : M A) (k : A → M B) c a c' :
  m c = Some (a, c') → (m ≫= k) c = k a c'.
Proof. intros H. unfold mbind, cache_bind, bind. by rewrite H. Qed.

Lemma bind_None {A B} (m : M A) (k : A → M B) c :
  m c = None → (m ≫= k) c = None.
Proof. intros H. unfold mbind, cache_bind, bind. by rewrite H. Qed.

(** On a guess of at most five letters a call returns, whatever the cache. *)
Lemma cached_total guess target c :
  (length guess ≤ 5)%nat → ∃ p c', get_pattern_cached guess target c = Some (p, c').
Proof.
  intros Hlen. unfold get_pattern_cached.
  destruct (c !! (guess, target)) as [p|]; [by eauto|].
  destruct (proj2 (get_pattern_is_Some guess target) Hlen) as [p ->]. eauto.
Qed.

Lemma count_patterns_total wd cands : ∀ pc c,
  (length wd ≤ 5)%nat →
  ∃ pc' c', count_patterns wd cands pc c = Some (pc', c')
    ∧ tally_total pc' = (tally_total pc + length cands)%nat
    ∧ (Forall (λ e : pattern * nat, (1 ≤ e.2)%nat) pc →
       Forall (λ e : pattern * nat, (1 ≤ e.2)%nat) pc').
Proof.
  induction cands as [|cand cands IH]; intros pc c Hlen; simpl.
  - exists pc, c. split; [done|]. split; [lia|done].
  - destruct (cached_total wd cand c Hlen) as (p & c1 & Hcall).
    rewrite (bind_Some _ _ _ _ _ Hcall).
    destruct (IH (tally p pc) c1 Hlen) as (pc' & c' & Hrun & Htot & Hpos).
    exists pc', c'. split; [done|]. rewrite tally_total_tally in Htot.
    split; [lia|]. intros H. by apply Hpos, tally_positive.
Qed.

Lemma board_entropy_nonneg wd cands c :
  (length wd ≤ 5)%nat →
  ∃ pc c', count_patterns wd cands [] c = Some (pc, c')
    ∧ 0 <= entropy_of pc (length cands)
    ∧ ((length cands ≤ 1)%nat → entropy_of pc (length cands) = 0).
Proof.
  intros Hlen.
  destruct (count_patterns_total wd cands [] c Hlen) as (pc & c' & Hrun & Htot & Hpos).
  exists pc, c'. split; [done|]. change (tally_total []) with 0%nat in Htot.
  simpl in Htot. split; [rewrite <- Htot; apply entropy_of_nonneg; auto|].
  intros Hone. destruct cands as [|cand [|? ?]]; simpl in Hone; [| |lia].
  - simpl in Hrun. injection Hrun as <- <-. unfold entropy_of. simpl. done.
  - simpl in Hrun. destruct (cached_total wd cand c Hlen) as (p & c1 & Hcall).
    rewrite (bind_Some _ _ _ _ _ Hcall) in Hrun. injection Hrun as <- <-.
    unfold entropy_of, tally_total. simpl. rewrite term_one. lra.
Qed.

Lemma entropy_loop_nonneg wd states : ∀ acc c,
  (length wd ≤ 5)%nat →
  ∃ r c', entropy_loop wd states acc c = Some (r, c')
    ∧ acc <= r
    ∧ entropy_loop wd (filter (λ g, active g = true) states) acc c = Some (r, c')
    ∧ (Forall (λ g, (length (possible g) ≤ 1)%nat) states → r = acc).
Proof.
  induction states as [|state states IH]; intros acc c Hlen; simpl.
  - exists acc, c. repeat split; (done || lra).
  - rewrite filter_cons. destruct (active state) eqn:Hact.
    + rewrite decide_True by done. simpl. rewrite Hact.
      destruct (board_entropy_nonneg wd (possible state) c Hlen)
        as (pc & c1 & Hrun & Hpos & Hone).
      rewrite !(bind_Some _ _ _ _ _ Hrun).
      destruct (IH (acc + entropy_of pc (length (possible state))) c1 Hlen)
        as (r & c' & Hloop & Hle & Hskip & Hzero).
      exists r, c'. split; [done|]. split; [lra|]. split; [done|].
      intros Hall. apply Forall_cons in Hall as [H1 Hall].
      rewrite (Hzero Hall), (Hone H1). lra.
    + rewrite decide_False by done.
      destruct (IH acc c Hlen) as (r & c' & Hloop & Hle & Hskip & Hzero).
      exists r, c'. split; [done|]. split; [done|]. split; [done|].
      intros Hall. apply Forall_cons in Hall as [_ Hall]. auto.
Qed.

Lemma calculate_entropy_returns wd states c :
  (length wd ≤ 5)%nat → ∃ r c', calculate_entropy wd states c = Some (r, c').
Proof.
  intros Hlen.
  destruct (entropy_loop_nonneg wd states 0 c Hlen) as (r & c' & Hrun & _).
  by exists r, c'.
Qed.

(** C7. For a word of at most five letters and any sequence of boards,
    [calculate_entropy] returns a score that is at least 0; the boards with
    no candidate are skipped, so that the score is the one of the active
    boards alone; and the score is exactly 0 when every board has at most one
    candidate.  (Python floats are read as real numbers.) *)
Theorem calculate_entropy_nonneg (wd : word) (game_states : list game) (c : cache) :
  (length wd ≤ 5)%nat →
  ∃ r c', calculate_entropy wd game_states c = Some (r, c')
    ∧ 0 <= r
    ∧ calculate_entropy wd (filter (λ g, active g = true) game_states) c
      = Some (r, c')
    ∧ (Forall (λ g, (length (possible g) ≤ 1)%nat) game_states → r = 0).
Proof. intros Hlen. by apply entropy_loop_nonneg. Qed.

End entropy_facts.

Section selector_facts.

Import Oracle Cache Entropy Selector.

Local Open Scope R_scope.

(** *** On a sound cache the scorer computes [score] *)

Lemma count_patterns_sound wd cands : ∀ pc c,
  sound c →
  match count_patterns wd cands pc c with
  | Some (pc', c') => tallies wd cands pc = Some pc' ∧ sound c'
  | None => tallies wd cands pc = None
  end.
Proof.
  induction cands as [|cand cands IH]; intros pc c Hc; simpl; [done|].
  pose proof (cached_call wd cand c Hc) as Hcall.
  destruct (get_pattern_cached wd cand c) as [[p c1]|] eqn:E.
  - destruct Hcall as (-> & Hc1 & _). rewrite (bind_Some _ _ _ _ _ E). simpl.
    by apply IH.
  - rewrite (bind_None _ _ _ E), Hcall. done.
Qed.

Lemma entropy_loop_sound wd states : ∀ acc c,
  sound c →
  match entropy_loop wd states acc c with
  | Some (r, c') => score_from wd states acc = Some r ∧ sound c'
  | None => score_from wd states acc = None
  end.
Proof.
  induction states as [|state states IH]; intros acc c Hc; simpl; [done|].
  destruct (active state); [|by apply IH].
  pose proof (count_patterns_sound wd (possible state) [] c Hc) as Hrun.
  destruct (count_patterns wd (possible state) [] c) as [[pc c1]|] eqn:E.
  - destruct Hrun as [-> Hc1]. rewrite (bind_Some _ _ _ _ _ E). simpl.
    by apply IH.
  - rewrite (bind_None _ _ _ E), Hrun. done.
Qed.

(** *** The scan *)

Lemma scan_total states cands : ∀ best_word best_score c,
  Forall (λ wd : word, (length wd ≤ 5)%nat) cands →
  ∃ r c', scan states cands best_word best_score c = Some (r, c')
    ∧ (r = best_word ∨ ∃ wd, r = Some wd ∧ wd ∈ cands).
Proof.
  induction cands as [|wd cands IH]; intros bw bs c Hlen; simpl.
  - exists bw, c. auto.
  - apply Forall_cons in Hlen as [Hwd Hlen].
    destruct (calculate_entropy_returns wd states c Hwd) as (s & c1 & Hrun).
    rewrite (bind_Some _ _ _ _ _ Hrun).
    destruct (improves s bs).
    + destruct (IH (Some wd) (Some s) c1 Hlen) as (r & c' & Hscan & Hr).
      exists r, c'. split; [done|]. right. destruct Hr as [->|(wd' & -> & Hin)].
      * exists wd. split; [done|]. apply list_elem_of_here.
      * exists wd'. split; [done|]. by apply list_elem_of_further.
    + destruct (IH bw bs c1 Hlen) as (r & c' & Hscan & Hr).
      exists r, c'. split; [done|]. destruct Hr as [->|(wd' & -> & Hin)]; [by left|].
      right. exists wd'. split; [done|]. by apply list_elem_of_further.
Qed.

(** *** [get_best_guess] *)

Lemma no_active_games games :
  filter (λ g, active g = true) games = [] ↔ Forall (λ g, possible g = []) games.
Proof.
  induction games as [|g games IH]; [by split; [constructor|]|].
  rewrite filter_cons, Forall_cons.
  assert (active g = true ↔ possible g ≠ []) as Hact.
  { unfold active. by destruct (possible g). }
  case_decide as Hg.
  - split; [done|]. intros [Hp _]. by apply Hact in Hg.
  - rewrite IH. split; [|tauto]. intros Hall. split; [|done].
    destruct (possible g) eqn:Hp; [done|]. exfalso. apply Hg, Hact. done.
Qed.

Lemma some_active_game games :
  Exists (λ g, possible g ≠ []) games ↔ ¬ Forall (λ g, possible g = []) games.
Proof.
  split.
  - intros Hex Hall. rewrite Forall_forall in Hall. rewrite Exists_exists in Hex.
    destruct Hex as (g & Hin & Hne). by apply Hne, Hall.
  - intros Hnot. destruct (decide (Exists (λ g, possible g ≠ []) games)) as [|Hno];
      [done|].
    exfalso. apply Hnot. apply Forall_forall. intros g Hin.
    destruct (decide (possible g = [])) as [|Hne]; [done|].
    exfalso. apply Hno. apply Exists_exists. eauto.
Qed.

(** C5. With a non-empty list of allowed guesses of at most five letters,
    [get_best_guess] returns [None] exactly when every board's candidate list
    is empty, and a word of the scanned prefix as soon as one board has a
    candidate left. *)
Theorem get_best_guess_none_iff
    (allowed : list word) (games : list game) (c : cache) :
  allowed ≠ [] → Forall (λ wd : word, (length wd ≤ 5)%nat) allowed →
  ∃ r c', get_best_guess allowed games c = Some (r, c')
    ∧ (r = None ↔ Forall (λ g, possible g = []) games)
    ∧ (Exists (λ g, possible g ≠ []) games →
       ∃ wd, r = Some wd ∧ wd ∈ take 2316 allowed).
Proof.
  intros Hne Hlen. unfold get_best_guess.
  pose proof (no_active_games games) as Hnone.
  destruct (filter (λ g, active g = true) games) as [|g0 act] eqn:Hact.
  - exists None, c. split; [done|]. split; [by split; [intros _; apply Hnone|]|].
    intros Hex. apply some_active_game in Hex. exfalso. by apply Hex, Hnone.
  - assert (¬ Forall (λ g, possible g = []) games) as Hsome.
    { intros Hall. by apply Hnone in Hall. }
    destruct allowed as [|wd rest]; [done|].
    apply Forall_cons in Hlen as [Hwd Hrest].
    change (take 2316 (wd :: rest)) with (wd :: take 2315 rest).
    cbn [scan].
    destruct (calculate_entropy_returns wd (g0 :: act) c Hwd) as (s & c1 & Hrun).
    rewrite (bind_Some _ _ _ _ _ Hrun). cbn [improves].
    destruct (scan_total (g0 :: act) (take 2315 rest) (Some wd) (Some s) c1)
      as (r & c' & Hscan & Hr).
    { by apply Forall_take. }
    exists r, c'. split; [done|].
    assert (∃ wd', r = Some wd' ∧ wd' ∈ wd :: take 2315 rest) as (wd' & -> & Hin).
    { destruct Hr as [->|(wd' & -> & Hin)].
      - exists wd. split; [done|]. apply list_elem_of_here.
      - exists wd'. split; [done|]. by apply list_elem_of_further. }
    split; [by split|]. intros _. eauto.
Qed.

End selector_facts.

(** * The selection loop on the scores of the machine *)

Section selection_loop.

Import Cache Loop.

(** *** The loop is a scan of the scores in the order of the calls *)



(** *** The loop of [Selector] is this loop on the reals *)

Lemma selector_scan_with act cands : ∀ bw bs c,
  Selector.scan act cands bw bs c
  = scan_with real_gt real_scorer act cands bw bs c.
Proof.
  induction cands as [|wd cands IH]; intros bw bs c; [done|]. simpl.
  unfold real_scorer.
  destruct (Entropy.calculate_entropy wd act c) as [[s c1]|] eqn:Hs.
  - rewrite (bind_Some _ _ _ _ _ Hs).
    assert ((score ← Entropy.calculate_entropy wd act; mret (Some score)) c
            = Some (Some s, c1)) as Hs'.
    { by rewrite (bind_Some _ _ _ _ _ Hs). }
    rewrite (bind_Some _ _ _ _ _ Hs'). simpl.
    destruct (Selector.improves s bs); apply IH.
  - rewrite (bind_None _ _ _ Hs).
    assert ((score ← Entropy.calculate_entropy wd act; mret (Some score)) c
            = None) as Hs'.
    { by rewrite (bind_None _ _ _ Hs). }
    by rewrite (bind_None _ _ _ Hs').
Qed.

Lemma selector_get_best_guess_with allowed games c :
  Selector.get_best_guess allowed games c
  = get_best_guess_with real_gt None real_scorer allowed games c.
Proof.
  unfold Selector.get_best_guess, get_best_guess_with.
  destruct (filter _ games); [done|]. apply selector_scan_with.
Qed.

(** *** The order of the doubles *)









End selection_loop.

(** * Further properties of the pattern oracle *)

Section oracle_positions.

Import Oracle.

Lemma first_marks_lookup gts : ∀ pat i,
  Forall (λ m, m ≠ MC) pat →
  first_marks gts pat !! i = Some MC
  ↔ ∃ a, gts !! i = Some (a, a) ∧ i < length pat.
Proof.
  induction gts as [|[g t] gts IH]; intros pat i Hpat.
  - simpl. split.
    + intros Hi. rewrite Forall_forall in Hpat.
      exfalso. apply (Hpat MC); [|done]. by eapply list_elem_of_lookup_2.
    + by intros (a & Ha & _).
  - destruct Hpat as [|m pat Hm Hpat]; simpl.
    { split; [done|]. intros (a & _ & Hi). simpl in Hi. lia. }
    destruct i as [|i]; simpl.
    + case_decide; split.
      * intros _. subst. exists t. split; [done|lia].
      * done.
      * intros [= ?]. done.
      * intros (a & [= -> ->] & _). done.
    + rewrite IH by done. split; intros (a & Ha & Hi); exists a; (split; [done|lia]).
Qed.

Lemma second_marks_lookup_correct target gs : ∀ pat counts i,
  (second_marks target gs pat counts).1 !! i = Some MC ↔ pat !! i = Some MC.
Proof.
  induction gs as [|g gs IH]; intros [|m pat] counts i; simpl; try done.
  repeat case_decide; subst; destruct i as [|i]; simpl; rewrite ?IH;
    try done; split; intros [= ?]; done.
Qed.

Lemma first_marks_beyond gts : ∀ pat i,
  length gts ≤ i → first_marks gts pat !! i = pat !! i.
Proof.
  induction gts as [|[g t] gts IH]; intros [|m pat] i Hi; simpl in *; try done.
  destruct i as [|i]; [lia|]. simpl. apply IH. lia.
Qed.

Lemma second_marks_beyond target gs : ∀ pat counts i,
  length gs ≤ i → (second_marks target gs pat counts).1 !! i = pat !! i.
Proof.
  induction gs as [|g gs IH]; intros [|m pat] counts i Hi; simpl in *; try done.
  destruct i as [|i]; [lia|].
  repeat case_decide; simpl; apply IH; lia.
Qed.

Lemma second_marks_decided target gs : ∀ pat counts i,
  i < length gs → i < length pat →
  ∃ m, (second_marks target gs pat counts).1 !! i = Some m ∧ m ≠ Blank.
Proof.
  induction gs as [|g gs IH]; intros [|m pat] counts i Hi Hp; simpl in *; try lia.
  destruct i as [|i].
  - repeat case_decide; simpl; eexists; (split; [done|]); done.
  - repeat case_decide; simpl; apply IH; lia.
Qed.

(** A Present mark is written only on a letter that occurs in the target,
    and a letter that does not occur there gets an Absent mark. *)
Lemma second_marks_present target gs : ∀ pat counts i a,
  gs !! i = Some a → i < length pat →
  Forall (λ m, m = Blank ∨ m = MC) pat →
  ((second_marks target gs pat counts).1 !! i = Some MP → a ∈ target)
  ∧ (a ∉ target → pat !! i ≠ Some MC →
     (second_marks target gs pat counts).1 !! i = Some MA).
Proof.
  induction gs as [|g gs IH]; intros pat counts i a Hi Hp Hpat; [done|].
  destruct Hpat as [|m pat Hm Hpat]; simpl in Hp; [lia|].
  assert (Hocc : ∀ n, n < total_in_target g target → g ∈ target).
  { intros n Hn. unfold total_in_target in Hn.
    destruct (filter (λ t, t = g) target) as [|x xs] eqn:Hf; simpl in Hn; [lia|].
    assert (x ∈ filter (λ t, t = g) target) as Hx by (rewrite Hf; left).
    apply list_elem_of_filter in Hx as [-> Hx]. done. }
  simpl. destruct i as [|i]; simpl in Hi.
  - injection Hi as ->. destruct (decide (m = MC)) as [->|Hne]; simpl.
    { split; [done|]. intros _ Hc. by exfalso. }
    destruct (decide (count_of counts a < total_in_target a target)) as [Hlt|Hge];
      simpl.
    + split; [intros _; by eapply Hocc|].
      intros Hout _. exfalso. by eapply Hout, Hocc.
    + by split.
  - repeat case_decide; simpl; apply IH; (done || lia).
Qed.

(** *** The counter of a letter at the end of the second pass *)

Lemma unlocated_cons l g gs m pat :
  unlocated l (g :: gs) (m :: pat)
  = (if decide (g = l ∧ m ≠ MC) then 1 else 0) + unlocated l gs pat.
Proof. unfold unlocated. simpl. rewrite filter_cons. simpl. by case_decide. Qed.

Lemma second_marks_counter target l gs : ∀ pat counts,
  count_of counts l ≤ total_in_target l target →
  count_of (second_marks target gs pat counts).2 l
  = total_in_target l target `min` (count_of counts l + unlocated l gs pat).
Proof.
  induction gs as [|g gs IH]; intros pat counts Hle.
  { destruct pat; simpl; unfold unlocated; simpl; lia. }
  destruct pat as [|m pat]; [simpl; unfold unlocated; simpl; lia|].
  simpl. rewrite unlocated_cons.
  destruct (decide (m = MC)) as [->|Hm]; simpl.
  - rewrite IH by done. rewrite decide_False by intuition. done.
  - destruct (decide (count_of counts g < total_in_target g target)) as [Hlt|Hge];
      simpl.
    + assert (count_of (bump g counts) l ≤ total_in_target l target) as Hle'.
      { rewrite count_of_bump. case_decide; subst; lia. }
      rewrite IH by done. rewrite count_of_bump.
      destruct (decide (g = l)) as [->|Hgl].
      * rewrite decide_True by done. lia.
      * rewrite decide_False by intuition. lia.
    + rewrite IH by done.
      destruct (decide (g = l)) as [->|Hgl].
      * rewrite decide_True by done. lia.
      * rewrite decide_False by intuition. lia.
Qed.

Lemma located_unlocated l gs : ∀ pat,
  length gs ≤ length pat →
  located l gs pat + unlocated l gs pat = total_in_target l gs.
Proof.
  induction gs as [|g gs IH]; intros pat Hlen; [done|].
  destruct pat as [|m pat]; simpl in Hlen; [lia|].
  rewrite located_cons, unlocated_cons, total_in_target_cons.
  specialize (IH pat). destruct (decide (m = MC));
    repeat case_decide; subst; try lia; exfalso; intuition.
Qed.

Lemma first_marks_two_marks gts : ∀ pat,
  Forall (λ m, m = Blank ∨ m = MC) pat →
  Forall (λ m, m = Blank ∨ m = MC) (first_marks gts pat).
Proof.
  induction gts as [|[g t] gts IH]; intros pat Hpat; [by destruct pat|].
  destruct Hpat as [|m pat Hm Hpat]; simpl; [constructor|].
  constructor; [case_decide; auto | by apply IH].
Qed.

Lemma blank_pattern_facts :
  Forall (λ m, m ≠ MC) (replicate 5 Blank)
  ∧ Forall (λ m, m = Blank ∨ m = MC) (replicate 5 Blank).
Proof. split; apply Forall_replicate; auto. Qed.

Lemma get_pattern_unfold guess target pat :
  get_pattern guess target = Some pat →
  length guess ≤ 5
  ∧ pat = (second_marks target guess
             (first_marks (zip guess target) (replicate 5 Blank))
             (first_counts (zip guess target) ∅)).1.
Proof.
  intros H. assert (length guess ≤ 5) as Hlen.
  { apply (get_pattern_is_Some guess target). eauto. }
  split; [done|]. rewrite get_pattern_marks in H by done. congruence.
Qed.

Lemma get_pattern_lookup_correct guess target pat i :
  get_pattern guess target = Some pat →
  pat !! i = Some MC ↔ ∃ a, guess !! i = Some a ∧ target !! i = Some a.
Proof.
  intros H. apply get_pattern_unfold in H as [Hlen ->].
  rewrite second_marks_lookup_correct.
  rewrite first_marks_lookup by apply blank_pattern_facts.
  rewrite length_replicate. split.
  - intros (a & Ha & _). apply lookup_zip_with_Some in Ha as (x & y & [= -> ->] & Hx & Hy).
    eauto.
  - intros (a & Hg & Ht). exists a. split.
    + apply lookup_zip_with_Some. eauto.
    + apply lookup_lt_Some in Hg. lia.
Qed.

(** X1. [get_pattern] returns exactly on guesses of at most five letters
    (a longer guess runs past the five-entry list), whatever the target, and
    what it returns always has five entries. *)
Theorem get_pattern_bounds (guess target : word) :
  (is_Some (get_pattern guess target) ↔ length guess ≤ 5)
  ∧ ∀ pat, get_pattern guess target = Some pat → length pat = 5.
Proof.
  split; [apply get_pattern_is_Some|]. intros pat. apply get_pattern_length.
Qed.

(** X2. In a returned pattern, position [i] is Correct exactly when guess
    and target hold the same letter there, and an entry is left blank
    exactly at the positions from the end of the guess up to the fifth. *)
Theorem get_pattern_positions (guess target : word) (pat : pattern) (i : nat) :
  get_pattern guess target = Some pat →
  (pat !! i = Some MC ↔ ∃ a, guess !! i = Some a ∧ target !! i = Some a)
  ∧ (pat !! i = Some Blank ↔ length guess ≤ i < 5).
Proof.
  intros H. split; [by apply get_pattern_lookup_correct|].
  apply get_pattern_unfold in H as [Hlen ->].
  destruct (decide (i < length guess)) as [Hi|Hi].
  - destruct (second_marks_decided target guess
      (first_marks (zip guess target) (replicate 5 Blank))
      (first_counts (zip guess target) ∅) i) as (m & -> & Hm); [done| |].
    { rewrite first_marks_length, length_replicate. lia. }
    split; [intros [= ->]; done | lia].
  - rewrite second_marks_beyond, first_marks_beyond by (rewrite ?length_zip_with; lia).
    split.
    + intros Hb. apply lookup_lt_Some in Hb. rewrite length_replicate in Hb. lia.
    + intros [_ H5]. by apply lookup_replicate_2.
Qed.

(** X3. For five-letter words the pattern is all Correct exactly when the
    guess is the target. *)
Theorem get_pattern_all_correct (guess target : word) :
  length guess = 5 → length target = 5 →
  get_pattern guess target = Some (replicate 5 MC) ↔ guess = target.
Proof.
  intros Hg Ht. split.
  - intros H. apply (list_eq_same_length _ _ 5); [done..|].
    intros i a b Hi Ha Hb.
    assert (replicate 5 MC !! i = Some MC) as Hc by (by apply lookup_replicate_2).
    apply (get_pattern_lookup_correct _ _ _ i H) in Hc as (c & Hc1 & Hc2).
    congruence.
  - intros <-. destruct (proj2 (get_pattern_is_Some guess guess)) as [pat Hpat]; [lia|].
    rewrite Hpat. f_equal.
    apply (list_eq_same_length _ _ 5);
      [by rewrite length_replicate | by eapply get_pattern_length |].
    intros i a b Hi Ha Hb. apply lookup_replicate in Hb as [-> _].
    destruct (lookup_lt_is_Some_2 guess i) as [c Hc]; [lia|].
    assert (pat !! i = Some MC) as Hmc.
    { apply (get_pattern_lookup_correct _ _ _ i Hpat). eauto. }
    congruence.
Qed.

(** X4. A position is marked Present only when its letter occurs in the
    target and the target holds another letter at that position; a letter
    that does not occur in the target is marked Absent. *)
Theorem get_pattern_present
    (guess target : word) (pat : pattern) (i : nat) (a : ascii) :
  get_pattern guess target = Some pat → guess !! i = Some a →
  (pat !! i = Some MP → a ∈ target ∧ target !! i ≠ Some a)
  ∧ (a ∉ target → pat !! i = Some MA).
Proof.
  intros H Ha. pose proof (get_pattern_lookup_correct _ _ _ i H) as Hc.
  apply get_pattern_unfold in H as [Hlen ->].
  pose proof (lookup_lt_Some _ _ _ Ha) as Hi.
  destruct (second_marks_present target guess
    (first_marks (zip guess target) (replicate 5 Blank))
    (first_counts (zip guess target) ∅) i a) as [Hp Hout]; [done| |..].
  { rewrite first_marks_length, length_replicate. lia. }
  { apply first_marks_two_marks, blank_pattern_facts. }
  split.
  - intros Hmp. split; [by apply Hp|]. intros Ht.
    assert (Some MP = Some MC) as [=].
    rewrite <- Hmp. apply Hc. eauto.
  - intros Hno. apply Hout; [done|]. intros Hmc.
    apply second_marks_lookup_correct with (target := target)
      (gs := guess) (counts := first_counts (zip guess target) ∅) in Hmc.
    apply Hc in Hmc as (b & Hb & Hb'). apply Hno.
    assert (a = b) as -> by congruence. by eapply list_elem_of_lookup_2.
Qed.

Lemma credited_min (guess target : word) (pat : pattern) (l : ascii) :
  get_pattern guess target = Some pat →
  credited l guess pat
  = total_in_target l guess `min` total_in_target l target.
Proof.
  intros H. apply get_pattern_unfold in H as [Hlen ->].
  destruct blank_pattern_facts as [Hb1 Hb2].
  set (pat1 := first_marks (zip guess target) (replicate 5 Blank)).
  set (c1 := first_counts (zip guess target) ∅).
  destruct (second_marks_credit target l guess pat1 c1) as [H1 _].
  assert (count_of c1 l = agreeing_on l (zip guess target)) as Hc1.
  { unfold c1. rewrite first_counts_agreeing. unfold count_of.
    by rewrite lookup_empty. }
  assert (located l guess pat1 = agreeing_on l (zip guess target)) as Hloc.
  { apply first_marks_located; [rewrite length_replicate; lia | done]. }
  pose proof (agreeing_on_le l guess target) as Hle.
  pose proof (second_marks_counter target l guess pat1 c1) as Hcnt.
  rewrite Hc1 in Hcnt. specialize (Hcnt Hle).
  pose proof (located_unlocated l guess pat1) as Hsum.
  unfold pat1 in Hsum at 1. rewrite first_marks_length, length_replicate in Hsum.
  specialize (Hsum Hlen). fold pat1 in Hsum.
  simpl in H1. lia.
Qed.

(** X5. For every letter, the positions of the guess holding it that are
    marked Correct or Present are as many as the smaller of its occurrences
    in the guess and its occurrences in the target. *)
Theorem get_pattern_credit (guess target : word) (pat : pattern) (l : ascii) :
  get_pattern guess target = Some pat →
  credited l guess pat
  = total_in_target l guess `min` total_in_target l target.
Proof. apply credited_min. Qed.

(** With a guess without repeated letters, a letter that occurs in the
    target is never marked Absent. *)
Lemma absent_mark_not_in_target guess target pat i a :
  NoDup guess → get_pattern guess target = Some pat →
  guess !! i = Some a → pat !! i = Some MA → a ∉ target.
Proof.
  intros Hnd H Ha Hma Hin.
  pose proof (credited_min guess target pat a H) as Hcr.
  assert (1 ≤ total_in_target a guess) as Hg.
  { unfold total_in_target. apply list_elem_of_lookup_2 in Ha.
    destruct (filter (λ t, t = a) guess) as [|x xs] eqn:Hf; simpl; [|lia].
    exfalso. assert (a ∈ filter (λ t, t = a) guess) as Hx.
    { by apply list_elem_of_filter. }
    rewrite Hf in Hx. by apply not_elem_of_nil in Hx. }
  assert (1 ≤ total_in_target a target) as Ht.
  { unfold total_in_target.
    destruct (filter (λ t, t = a) target) as [|x xs] eqn:Hf; simpl; [|lia].
    exfalso. assert (a ∈ filter (λ t, t = a) target) as Hx.
    { by apply list_elem_of_filter. }
    rewrite Hf in Hx. by apply not_elem_of_nil in Hx. }
  assert (1 ≤ credited a guess pat) as Hone by lia.
  unfold credited in Hone.
  destruct (filter (λ gm, gm.1 = a ∧ (gm.2 = MC ∨ gm.2 = MP)) (zip guess pat))
    as [|[b m] xs] eqn:Hf; simpl in Hone; [lia|].
  assert ((b, m) ∈ filter (λ gm, gm.1 = a ∧ (gm.2 = MC ∨ gm.2 = MP)) (zip guess pat))
    as Hx by (rewrite Hf; left).
  apply list_elem_of_filter in Hx as [[Hb Hm] Hx]. simpl in Hb, Hm. subst b.
  apply list_elem_of_lookup_1 in Hx as [j Hj].
  apply lookup_zip_with_Some in Hj as (x & y & [= <- <-] & Hx & Hy).
  assert (i = j) as <- by (by eapply NoDup_lookup).
  rewrite Hma in Hy. injection Hy as <-. by destruct Hm.
Qed.

End oracle_positions.

(** * Further properties of the cache and the scorer *)

Section cache_transparency.

Import Oracle Cache Entropy Selector.

Local Open Scope R_scope.

(** X6. A call that returns leaves the pattern under the pair asked, keeps
    every entry the cache had and adds no other; and an entry already stored
    under the pair is returned as it is, with the cache unchanged. *)
Theorem get_pattern_cached_stores (guess target : word) (c : cache) :
  (∀ p c', get_pattern_cached guess target c = Some (p, c') →
     c' !! (guess, target) = Some p
     ∧ (∀ k q, c !! k = Some q → c' !! k = Some q)
     ∧ (∀ k, k ≠ (guess, target) → c' !! k = c !! k))
  ∧ (∀ q, c !! (guess, target) = Some q →
       get_pattern_cached guess target c = Some (q, c)).
Proof.
  split; [|intros q Hq; by apply cached_hit].
  intros p c'. unfold get_pattern_cached.
  destruct (c !! (guess, target)) as [q|] eqn:Hhit.
  - intros [= <- <-]. auto.
  - destruct (get_pattern guess target) as [q|]; [|done].
    intros [= <- <-]. split; [by rewrite lookup_insert_eq|]. split.
    + intros k q' Hk. rewrite lookup_insert_ne; [done|]. congruence.
    + intros k Hk. by rewrite lookup_insert_ne.
Qed.

Lemma scan_sound states cands : ∀ best_word best_score c,
  sound c →
  match scan states cands best_word best_score c with
  | Some (r, c') => best_of states cands best_word best_score = Some r ∧ sound c'
  | None => best_of states cands best_word best_score = None
  end.
Proof.
  induction cands as [|wd cands IH]; intros bw bs c Hc; simpl; [done|].
  pose proof (entropy_loop_sound wd states 0 c Hc) as Hs.
  fold (calculate_entropy wd states) in Hs. fold (score wd states) in Hs.
  destruct (calculate_entropy wd states c) as [[s c1]|] eqn:E.
  - destruct Hs as [-> Hc1]. rewrite (bind_Some _ _ _ _ _ E). simpl.
    destruct (improves s bs); by apply IH.
  - rewrite (bind_None _ _ _ E), Hs. done.
Qed.

(** X7. On caches whose entries are sound, the score of a word does not
    depend on what the cache holds, and scoring leaves the cache sound. *)
Theorem calculate_entropy_cache_free
    (wd : word) (states : list game) (c1 c2 : cache) :
  sound c1 → sound c2 →
  fst <$> calculate_entropy wd states c1 = fst <$> calculate_entropy wd states c2
  ∧ ∀ r c', calculate_entropy wd states c1 = Some (r, c') → sound c'.
Proof.
  intros H1 H2.
  pose proof (entropy_loop_sound wd states 0 c1 H1) as Hs1.
  pose proof (entropy_loop_sound wd states 0 c2 H2) as Hs2.
  unfold calculate_entropy.
  destruct (entropy_loop wd states 0 c1) as [[r1 c1']|],
           (entropy_loop wd states 0 c2) as [[r2 c2']|]; simpl.
  - destruct Hs1 as [Hs1 Hc1], Hs2 as [Hs2 _].
    split; [congruence|]. by intros r c' [= <- <-].
  - destruct Hs1 as [Hs1 _]. congruence.
  - destruct Hs2 as [Hs2 _]. congruence.
  - done.
Qed.

(** X8. On caches whose entries are sound, the word [get_best_guess]
    returns does not depend on what the cache holds. *)
Theorem get_best_guess_cache_free
    (allowed : list word) (games : list game) (c1 c2 : cache) :
  sound c1 → sound c2 →
  fst <$> get_best_guess allowed games c1 = fst <$> get_best_guess allowed games c2.
Proof.
  intros H1 H2. unfold get_best_guess.
  destruct (filter (λ g, active g = true) games) as [|g0 act]; [done|].
  pose proof (scan_sound (g0 :: act) (take 2316 allowed) None None c1 H1) as Hs1.
  pose proof (scan_sound (g0 :: act) (take 2316 allowed) None None c2 H2) as Hs2.
  destruct (scan (g0 :: act) (take 2316 allowed) None None c1) as [[r1 c1']|],
           (scan (g0 :: act) (take 2316 allowed) None None c2) as [[r2 c2']|]; simpl.
  - destruct Hs1 as [Hs1 _], Hs2 as [Hs2 _]. congruence.
  - destruct Hs1 as [Hs1 _]. congruence.
  - destruct Hs2 as [Hs2 _]. congruence.
  - done.
Qed.

(** *** Scores that are zero *)

Lemma term_whole n : (1 ≤ n)%nat → term n n = 0.
Proof.
  intros Hn. unfold term, log2.
  assert (0 < INR n) as Hpos by (apply lt_0_INR; lia).
  replace (INR n / INR n) with 1 by (field; lra). rewrite ln_1. lra.
Qed.

Lemma count_patterns_same wd p cands : ∀ n c,
  sound c →
  Forall (λ cand, get_pattern wd cand = Some p) cands →
  ∃ c', count_patterns wd cands [(p, n)] c = Some ([(p, (n + length cands)%nat)], c')
    ∧ sound c'.
Proof.
  induction cands as [|cand cands IH]; intros n c Hc Hall; simpl.
  - exists c. by rewrite Nat.add_0_r.
  - apply Forall_cons in Hall as [Hp Hall].
    pose proof (cached_call wd cand c Hc) as Hcall. rewrite Hp in Hcall.
    destruct (get_pattern_cached wd cand c) as [[q c1]|] eqn:E; [|done].
    destruct Hcall as ([= <-] & Hc1 & _).
    rewrite (bind_Some _ _ _ _ _ E). simpl. rewrite decide_True by done.
    destruct (IH (n + 1)%nat c1 Hc1 Hall) as (c' & Hrun & Hc').
    exists c'. split; [|done]. rewrite Hrun.
    by replace (n + S (length cands))%nat with (n + 1 + length cands)%nat by lia.
Qed.

Lemma entropy_loop_same wd states : ∀ acc c,
  sound c → (length wd ≤ 5)%nat →
  Forall (λ g, ∀ t1 t2, t1 ∈ possible g → t2 ∈ possible g →
               get_pattern wd t1 = get_pattern wd t2) states →
  ∃ r c', entropy_loop wd states acc c = Some (r, c') ∧ r = acc ∧ sound c'.
Proof.
  induction states as [|state states IH]; intros acc c Hc Hlen Hall; simpl.
  - by exists acc, c.
  - apply Forall_cons in Hall as [Hsame Hall].
    unfold active. destruct (possible state) as [|t0 cands] eqn:Hp.
    + by apply IH.
    + destruct (proj2 (get_pattern_is_Some wd t0) Hlen) as [p Hpat].
      assert (Forall (λ cand, get_pattern wd cand = Some p) (t0 :: cands)) as Hps.
      { apply Forall_forall. intros cand Hin. rewrite <- Hpat.
        apply Hsame; [done|left]. }
      apply Forall_cons in Hps as [_ Hps].
      assert (∃ c2, count_patterns wd (t0 :: cands) [] c
                    = Some ([(p, (1 + length cands)%nat)], c2) ∧ sound c2)
        as (c2 & Hrun & Hc2).
      { cbn [count_patterns].
        pose proof (cached_call wd t0 c Hc) as Hcall. rewrite Hpat in Hcall.
        destruct (get_pattern_cached wd t0 c) as [[q c1]|] eqn:E; [|done].
        destruct Hcall as ([= <-] & Hc1 & _).
        rewrite (bind_Some _ _ _ _ _ E).
        change (tally p []) with [(p, 1%nat)].
        by apply count_patterns_same. }
      rewrite (bind_Some _ _ _ _ _ Hrun).
      destruct (IH (acc + entropy_of [(p, (1 + length cands)%nat)]
                                 (length (t0 :: cands))) c2 Hc2 Hlen Hall)
        as (r & c' & Hloop & Hr & Hc').
      exists r, c'. split; [done|]. split; [|done].
      rewrite Hr. unfold entropy_of. cbn [fold_left snd length].
      change (1 + length cands)%nat with (S (length cands)).
      rewrite (term_whole (S (length cands))) by lia. lra.
Qed.

(** X9. A guess of at most five letters that gets one and the same pattern
    against all the candidates of each board scores exactly 0. *)
Theorem calculate_entropy_no_split (wd : word) (states : list game) (c : cache) :
  sound c → (length wd ≤ 5)%nat →
  Forall (λ g, ∀ t1 t2, t1 ∈ possible g → t2 ∈ possible g →
               get_pattern wd t1 = get_pattern wd t2) states →
  ∃ c', calculate_entropy wd states c = Some (0, c').
Proof.
  intros Hc Hlen Hall.
  destruct (entropy_loop_same wd states 0 c Hc Hlen Hall) as (r & c' & Hrun & -> & _).
  by exists c'.
Qed.

Lemma scan_all_zero states cands : ∀ w0 c,
  Forall (λ wd : word, (length wd ≤ 5)%nat) cands →
  Forall (λ g, (length (possible g) ≤ 1)%nat) states →
  ∃ c', scan states cands (Some w0) (Some 0) c = Some (Some w0, c').
Proof.
  induction cands as [|wd cands IH]; intros w0 c Hlen Hone; simpl.
  - by exists c.
  - apply Forall_cons in Hlen as [Hwd Hlen].
    destruct (entropy_loop_nonneg wd states 0 c Hwd) as (r & c1 & Hrun & _ & _ & Hzero).
    rewrite (Hzero Hone) in Hrun. fold (calculate_entropy wd states) in Hrun.
    rewrite (bind_Some _ _ _ _ _ Hrun). simpl.
    destruct (Rlt_dec 0 0) as [Hlt|_]; [lra|]. by apply IH.
Qed.

(** X10. When every board has at most one candidate left and one board is
    still active, all scores are 0 and [get_best_guess] returns the first
    allowed word, whether or not it is a candidate of any board. *)
Theorem get_best_guess_singletons
    (w0 : word) (rest : list word) (games : list game) (c : cache) :
  Forall (λ wd : word, (length wd ≤ 5)%nat) (w0 :: rest) →
  Forall (λ g, (length (possible g) ≤ 1)%nat) games →
  Exists (λ g, possible g ≠ []) games →
  ∃ c', get_best_guess (w0 :: rest) games c = Some (Some w0, c').
Proof.
  intros Hlen Hone Hex. unfold get_best_guess.
  apply some_active_game in Hex. rewrite <- no_active_games in Hex.
  assert (Forall (λ g, (length (possible g) ≤ 1)%nat)
            (filter (λ g, active g = true) games)) as Hone'.
  { apply Forall_forall. intros g Hin. apply list_elem_of_filter in Hin as [_ Hin].
    rewrite Forall_forall in Hone. by apply Hone. }
  destruct (filter (λ g, active g = true) games) as [|g0 act]; [done|].
  apply Forall_cons in Hlen as [Hw0 Hrest].
  change (take 2316 (w0 :: rest)) with (w0 :: take 2315 rest). cbn [scan].
  destruct (entropy_loop_nonneg w0 (g0 :: act) 0 c Hw0) as (r & c1 & Hrun & _ & _ & Hzero).
  rewrite (Hzero Hone') in Hrun. fold (calculate_entropy w0 (g0 :: act)) in Hrun.
  rewrite (bind_Some _ _ _ _ _ Hrun). cbn [improves].
  apply scan_all_zero; [by apply Forall_take|done].
Qed.

End cache_transparency.

(** * Further properties of the board updates *)

Section board_updates.

Import Board Rules.

Lemma record_feedback_None feedback : ∀ i g,
  record_feedback i feedback g = None
  ↔ ∃ j l, feedback !! j = Some (l, "C"%char) ∧ length (correct g) ≤ i + j.
Proof.
  induction feedback as [|[l c] feedback IH]; intros i g; simpl.
  - split; [done|]. by intros (j & l & Hj & _).
  - assert (Hshift : ∀ g', length (correct g') = length (correct g) →
              c ≠ "C"%char ∨ i < length (correct g) →
              record_feedback (S i) feedback g' = None
              ↔ ∃ j l', ((l, c) :: feedback) !! j = Some (l', "C"%char)
                        ∧ length (correct g) ≤ i + j).
    { intros g' Hlen Hhead. rewrite IH, Hlen. split.
      - intros (j & l' & Hj & Hle). exists (S j), l'. split; [done|lia].
      - intros ([|j] & l' & Hj & Hle); simpl in Hj.
        + injection Hj as -> ->. destruct Hhead; [done|lia].
        + exists j, l'. split; [done|lia]. }
    destruct (decide (c = "C"%char)) as [->|Hc].
    + destruct (decide (i < length (correct g))) as [Hi|Hi].
      * apply Hshift; [simpl; by rewrite length_insert | by right].
      * split; [|done]. intros _. exists 0, l. split; [done|lia].
    + repeat case_decide; apply Hshift; auto.
Qed.

(** X11. Recording a feedback raises exactly when it marks as Correct a
    position beyond the last recorded one (the sixth pair or later); the
    other marks never raise. *)
Theorem record_feedback_raises (feedback : list (ascii * ascii)) (g : game) :
  record_feedback 0 feedback g = None
  ↔ ∃ j l, feedback !! j = Some (l, "C"%char) ∧ length (correct g) ≤ j.
Proof. apply record_feedback_None. Qed.

(** *** Whenever the update returns *)

Lemma keeps_true_matches g wd :
  keeps g wd = Some true → matches_correct 0 (correct g) wd = Some true.
Proof.
  unfold keeps. destruct (matches_correct 0 (correct g) wd) as [[|]|]; simpl; try done.
Qed.

Lemma narrow_kept g words : ∀ kept,
  narrow g words = Some kept →
  kept `sublist_of` words ∧ Forall (λ wd, keeps g wd = Some true) kept.
Proof.
  induction words as [|wd words IH]; intros kept; simpl.
  - intros [= <-]. split; constructor.
  - destruct (keeps g wd) as [b|] eqn:Hb; simpl; [|done].
    destruct (narrow g words) as [kept'|]; simpl; [|done].
    destruct (IH kept' eq_refl) as [Hsub Hall].
    intros [= <-]. destruct b; split; try (by constructor); done.
Qed.

Lemma update_game_related g feedback g' :
  update_game g feedback = Some g' →
  length (correct g') = length (correct g)
  ∧ possible g' `sublist_of` possible g.
Proof.
  unfold update_game.
  destruct (record_feedback 0 feedback g) as [g1|] eqn:H1; simpl; [|done].
  destruct (narrow g1 (possible g1)) as [kept|] eqn:Hk; simpl; [|done].
  intros [= <-]. simpl.
  destruct (record_feedback_frame _ _ _ _ H1) as [Hp Hc].
  apply narrow_kept in Hk as [Hsub _]. by rewrite Hp in Hsub.
Qed.

Lemma update_from_related feedbacks : ∀ idx games games',
  update_from idx feedbacks games = Some games' →
  length games' = length games
  ∧ (∀ i g g', games !! i = Some g → games' !! i = Some g' → narrowed g g')
  ∧ (∀ i, i < idx ∨ idx + length feedbacks ≤ i → games' !! i = games !! i)
  ∧ (∀ j feedback, feedbacks !! j = Some feedback → feedback ≠ [] →
       idx + j < length games).
Proof.
  induction feedbacks as [|feedback rest IH]; intros idx games games'.
  { simpl. intros [= <-]. split; [done|]. split; [|by split].
    intros i g g' Hg Hg'. assert (g' = g) as -> by congruence. by split. }
  destruct feedback as [|mark feedback].
  - simpl. intros H. apply IH in H as (Hlen & Hrel & Hframe & Hidx).
    split; [done|]. split; [done|]. split.
    + intros i Hi. apply Hframe. simpl in Hi. lia.
    + intros [|j] fb Hj Hne; simpl in Hj.
      * by injection Hj as <-.
      * specialize (Hidx j fb Hj Hne). lia.
  - simpl update_from.
    destruct (games !! idx) as [g0|] eqn:Hg0; simpl; [|done].
    destruct (update_game g0 (mark :: feedback)) as [g0'|] eqn:Hup; simpl; [|done].
    intros H. apply IH in H as (Hlen & Hrel & Hframe & Hidx).
    rewrite length_insert in Hlen, Hidx.
    pose proof (lookup_lt_Some _ _ _ Hg0) as Hlt.
    split; [done|]. split; [|split].
    + intros i g g' Hg Hg'. destruct (decide (i = idx)) as [->|Hne].
      * assert (g = g0) as -> by congruence.
        rewrite Hframe in Hg' by lia. rewrite list_lookup_insert_eq in Hg' by done.
        injection Hg' as <-. by apply update_game_related in Hup.
      * apply (Hrel i); [|done]. by rewrite list_lookup_insert_ne.
    + intros i Hi. simpl in Hi. rewrite Hframe by lia.
      apply list_lookup_insert_ne. lia.
    + intros [|j] fb Hj Hne; simpl in Hj.
      * rewrite Nat.add_0_r. done.
      * specialize (Hidx j fb Hj Hne). lia.
Qed.

(** X12. Whenever [update_games] returns, it returns as many boards as it
    got, each with its recorded positions as long as before and with
    candidates that are a sublist of the old ones; the boards past the end of
    the feedback list are untouched; and every non-empty feedback stood at
    the index of an existing board (a non-empty feedback past the last board
    raises). *)
Theorem update_games_frame
    (games games' : list game) (feedbacks : list (list (ascii * ascii))) :
  update_games games feedbacks = Some games' →
  length games' = length games
  ∧ (∀ i g g', games !! i = Some g → games' !! i = Some g' →
       length (correct g') = length (correct g)
       ∧ possible g' `sublist_of` possible g)
  ∧ (∀ i, length feedbacks ≤ i → games' !! i = games !! i)
  ∧ (∀ j feedback, feedbacks !! j = Some feedback → feedback ≠ [] →
       j < length games).
Proof.
  intros H. apply update_from_related in H as (Hlen & Hrel & Hframe & Hidx).
  split; [done|]. split; [exact Hrel|]. split.
  - intros i Hi. apply Hframe. right. simpl. lia.
  - intros j fb Hj Hne. by apply (Hidx j fb).
Qed.

(** *** Feedback that is Correct at every position *)

Lemma record_correct_only ls : ∀ i g g1,
  record_feedback i ((λ l, (l, "C"%char)) <$> ls) g = Some g1 →
  absent g1 = absent g
  ∧ present g1 ⊆ present g
  ∧ (∀ j, j < i → correct g1 !! j = correct g !! j)
  ∧ (∀ j l, ls !! j = Some l → correct g1 !! (i + j) = Some l).
Proof.
  induction ls as [|l ls IH]; intros i g g1; simpl.
  - intros [= <-]. split; [done|]. split; [done|]. split; [done|].
    intros j l. by rewrite lookup_nil.
  - case_decide as Hi; [|done].
    intros H. apply IH in H as (Ha & Hp & Hlow & Hup). simpl in *.
    split; [done|]. split; [|split].
    + intros x Hx. apply Hp in Hx. by apply elem_of_difference in Hx as [? _].
    + intros j Hj. rewrite Hlow by lia. apply list_lookup_insert_ne. lia.
    + intros [|j] l' Hj; simpl in Hj.
      * injection Hj as <-. rewrite Nat.add_0_r, Hlow by lia.
        by apply list_lookup_insert_eq.
      * rewrite Nat.add_succ_r. by apply Hup.
Qed.

Lemma correct_feedback_fmap guess :
  length guess = 5 → correct_feedback guess = (λ l, (l, "C"%char)) <$> guess.
Proof.
  intros Hlen. unfold correct_feedback.
  do 6 (destruct guess as [|? guess]; simpl in Hlen; try lia). reflexivity.
Qed.

Lemma record_all_correct g guess g1 :
  length (correct g) = 5 → length guess = 5 →
  record_feedback 0 (correct_feedback guess) g = Some g1 →
  correct g1 = guess ∧ absent g1 = absent g ∧ present g1 ⊆ present g
  ∧ possible g1 = possible g.
Proof.
  intros Hc Hg H. destruct (record_feedback_frame _ _ _ _ H) as [Hposs Hlen].
  rewrite correct_feedback_fmap in H by done.
  apply record_correct_only in H as (Ha & Hp & _ & Hup).
  split; [|by auto]. apply (list_eq_same_length _ _ 5); [done|congruence|].
  intros i a b Hi Ha' Hb. specialize (Hup i b Hb). simpl in Hup. congruence.
Qed.

Lemma matches_all wd guess :
  length wd = length guess → unknown ∉ guess →
  (∀ i c, guess !! i = Some c → c ≠ unknown → wd !! i = Some c) → wd = guess.
Proof.
  intros Hlen Hq H. apply (list_eq_same_length _ _ (length guess)); [done..|].
  intros i a b Hi Ha Hb. assert (wd !! i = Some b) as Hwd; [|congruence].
  apply H; [done|]. intros ->. apply Hq. by eapply list_elem_of_lookup_2.
Qed.

(** X13. On a board of five-letter candidates, the feedback Correct at all
    five positions of a guess records the guess as the five correct letters
    and leaves no candidate other than the guess itself. *)
Theorem update_game_all_correct (g : game) (guess : word) :
  five_letter g → length guess = 5 → unknown ∉ guess →
  ∃ g', update_game g (correct_feedback guess) = Some g'
    ∧ correct g' = guess
    ∧ Forall (λ wd, wd = guess) (possible g').
Proof.
  intros Hg Hlen Hq.
  destruct (update_game_shrinks g (correct_feedback guess) Hg) as (g' & Hup & Hfive & Hsub).
  { unfold correct_feedback. rewrite length_zip_with. simpl. lia. }
  exists g'. split; [done|]. unfold update_game in Hup.
  destruct (record_feedback 0 (correct_feedback guess) g) as [g1|] eqn:H1;
    simpl in Hup; [|done].
  destruct (narrow g1 (possible g1)) as [kept|] eqn:Hk; simpl in Hup; [|done].
  injection Hup as <-. simpl.
  destruct Hg as [Hc Hw].
  destruct (record_all_correct g guess g1 Hc Hlen H1) as (Hcor & _ & _ & Hposs).
  split; [done|].
  apply narrow_kept in Hk as [Hsub' Hall].
  apply Forall_forall. intros wd Hin.
  rewrite Forall_forall in Hall. pose proof (Hall wd Hin) as Hkeep.
  apply keeps_true_matches in Hkeep.
  assert (length wd = 5) as Hwd.
  { destruct Hfive as [_ Hw']. simpl in Hw'. rewrite Forall_forall in Hw'. auto. }
  destruct (matches_correct_rule_a g1 wd) as (b & Hb & Hiff); [rewrite Hcor; lia|].
  rewrite Hb in Hkeep. injection Hkeep as ->.
  apply matches_all; [lia|done|].
  destruct Hiff as [Hiff _]. specialize (Hiff eq_refl). unfold rule_a in Hiff.
  by rewrite Hcor in Hiff.
Qed.

Lemma avoids_present_none g : ∀ ls i,
  present g = ∅ → avoids_present g i ls = Some true.
Proof.
  induction ls as [|l ls IH]; intros i Hp; simpl; [done|].
  rewrite decide_False by (rewrite Hp; set_solver). by apply IH.
Qed.

(** X14. On a fresh board of five-letter answers, the feedback Correct at
    all five positions of a guess leaves exactly the answers equal to the
    guess, in their order, with no present and no absent letter recorded. *)
Theorem new_game_all_correct (answers : list word) (guess : word) :
  Forall (λ wd : word, length wd = 5) answers →
  length guess = 5 → unknown ∉ guess →
  update_game (new_game answers) (correct_feedback guess)
  = Some (Game (filter (λ wd, wd = guess) answers) guess ∅ ∅).
Proof.
  intros Hans Hlen Hq.
  destruct (record_feedback_total (correct_feedback guess) 0 (new_game answers))
    as [g1 H1].
  { unfold correct_feedback. rewrite length_zip_with. simpl. lia. }
  destruct (record_all_correct (new_game answers) guess g1 eq_refl Hlen H1)
    as (Hcor & Habs & Hpres & Hposs).
  simpl in Habs, Hpres, Hposs.
  assert (present g1 = ∅) as Hp by set_solver.
  unfold update_game. rewrite H1. simpl. rewrite Hposs, Hcor, Hp, Habs.
  assert (narrow g1 answers = Some (filter (λ wd, wd = guess) answers)) as ->; [|done].
  clear H1 Hposs Hpres.
  induction Hans as [|wd answers Hwd _ IH]; simpl; [done|].
  rewrite IH. rewrite filter_cons.
  assert (keeps g1 wd = Some (bool_decide (wd = guess))) as ->.
  { unfold keeps.
    destruct (matches_correct_rule_a g1 wd) as (b & -> & Hiff); [rewrite Hcor; lia|].
    simpl. unfold misses_present, hits_absent. rewrite Hp, Habs.
    rewrite !bool_decide_eq_false_2 by (intros (x & Hx & _); set_solver).
    simpl. rewrite avoids_present_none by done.
    destruct b; simpl; f_equal; symmetry.
    - apply bool_decide_eq_true. apply matches_all; [lia|done|].
      destruct Hiff as [Hiff _]. specialize (Hiff eq_refl). unfold rule_a in Hiff.
      by rewrite Hcor in Hiff.
    - apply bool_decide_eq_false. intros ->. destruct Hiff as [_ Hiff].
      assert (false = true) as [=]. apply Hiff. unfold rule_a. rewrite Hcor. auto. }
  simpl. by case_decide; [rewrite bool_decide_eq_true_2 | rewrite bool_decide_eq_false_2].
Qed.

(** *** What a round keeps and what the cleanup leaves *)

Lemma narrowed_five_letter g g' : five_letter g → narrowed g g' → five_letter g'.
Proof.
  intros [Hc Hw] [Hlen Hsub]. split; [congruence|].
  rewrite Forall_forall in *. intros wd Hin. apply Hw. by eapply elem_of_sublist.
Qed.

Lemma narrowed_lettered g g' : lettered g → narrowed g g' → lettered g'.
Proof.
  unfold lettered. intros Hw [_ Hsub].
  rewrite Forall_forall in *. intros wd Hin. apply Hw. by eapply elem_of_sublist.
Qed.

(** X15. The boards stay well-formed through a round: when all boards have
    five recorded positions and five-letter candidates without the unknown
    marker, so have the boards that [update_games] followed by
    [clean_constraints] leaves. *)
Theorem round_keeps_boards_well_formed
    (games games' : list game) (feedbacks : list (list (ascii * ascii))) :
  Forall five_letter games → Forall lettered games →
  update_games games feedbacks = Some games' →
  Forall five_letter (clean_constraints games')
  ∧ Forall lettered (clean_constraints games')
  ∧ length (clean_constraints games') = length games.
Proof.
  intros Hfive Hlet H. apply update_from_related in H as (Hlen & Hrel & _ & _).
  unfold clean_constraints. rewrite length_fmap.
  split; [|split; [|done]].
  - apply Forall_fmap, Forall_lookup. intros i g' Hg'.
    destruct (lookup_lt_is_Some_2 games i) as [g Hg].
    { rewrite <- Hlen. by eapply lookup_lt_Some. }
    pose proof (narrowed_five_letter g g' (Forall_lookup_1 _ _ _ _ Hfive Hg)
                  (Hrel i g g' Hg Hg')) as [Hc Hw].
    split; simpl; done.
  - apply Forall_fmap, Forall_lookup. intros i g' Hg'.
    destruct (lookup_lt_is_Some_2 games i) as [g Hg].
    { rewrite <- Hlen. by eapply lookup_lt_Some. }
    exact (narrowed_lettered g g' (Forall_lookup_1 _ _ _ _ Hlet Hg)
             (Hrel i g g' Hg Hg')).
Qed.

(** X16. [clean_constraints] touches neither the candidates nor the
    recorded positions of a board.  It keeps in [present] exactly the
    letters that are no value of [correct], and in [absent] exactly the
    letters that are neither a value of [correct] nor in the old [present];
    so afterwards no letter of [present] is a value of [correct] and no
    letter of [absent] is in [present]. *)
Theorem clean_constraints_leaves (games : list game) (i : nat) (g' : game) :
  clean_constraints games !! i = Some g' →
  ∃ g, games !! i = Some g
    ∧ possible g' = possible g ∧ correct g' = correct g
    ∧ (∀ p, p ∈ present g' ↔ p ∈ present g ∧ p ∉ correct g)
    ∧ (∀ a, a ∈ absent g' ↔ a ∈ absent g ∧ (a ∉ correct g) ∧ (a ∉ present g))
    ∧ (∀ a, a ∈ absent g' → a ∉ present g').
Proof.
  unfold clean_constraints. rewrite list_lookup_fmap.
  destruct (games !! i) as [g|]; simpl; [|done].
  intros [= <-]. exists g. split; [done|]. unfold clean_game. simpl.
  split; [done|]. split; [done|].
  assert (Hp : ∀ p, p ∈ filter (λ p, p ∉ correct g) (present g)
                    ↔ p ∈ present g ∧ p ∉ correct g).
  { intros p. rewrite elem_of_filter. tauto. }
  split; [exact Hp|]. split.
  - intros a. rewrite elem_of_filter, Hp. tauto.
  - intros a. rewrite elem_of_filter. tauto.
Qed.

(** *** Truthful feedback on a first guess *)

(** Whatever is recorded was on the board or comes from a pair of the
    feedback with the matching mark. *)
Lemma record_feedback_origin feedback : ∀ i0 g g1,
  record_feedback i0 feedback g = Some g1 →
  (∀ i c, correct g1 !! i = Some c →
     correct g !! i = Some c
     ∨ ∃ j, i = i0 + j ∧ feedback !! j = Some (c, "C"%char))
  ∧ (∀ p, p ∈ present g1 → p ∈ present g ∨ ∃ j, feedback !! j = Some (p, "P"%char))
  ∧ (∀ a, a ∈ absent g1 → a ∈ absent g ∨ ∃ j, feedback !! j = Some (a, "A"%char)).
Proof.
  induction feedback as [|[l c] feedback IH]; intros i0 g g1; simpl.
  { intros [= <-]. auto. }
  assert (Hnext : ∀ g', record_feedback (S i0) feedback g' = Some g1 →
    (∀ i x, correct g' !! i = Some x →
       correct g !! i = Some x ∨ (i = i0 ∧ x = l ∧ c = "C"%char)) →
    (∀ p, p ∈ present g' → p ∈ present g ∨ (p = l ∧ c = "P"%char)) →
    (∀ a, a ∈ absent g' → a ∈ absent g ∨ (a = l ∧ c = "A"%char)) →
    (∀ i x, correct g1 !! i = Some x →
       correct g !! i = Some x
       ∨ ∃ j, i = i0 + j ∧ ((l, c) :: feedback) !! j = Some (x, "C"%char))
    ∧ (∀ p, p ∈ present g1 →
         p ∈ present g ∨ ∃ j, ((l, c) :: feedback) !! j = Some (p, "P"%char))
    ∧ (∀ a, a ∈ absent g1 →
         a ∈ absent g ∨ ∃ j, ((l, c) :: feedback) !! j = Some (a, "A"%char))).
  { intros g' Hrec Hc Hp Ha. apply IH in Hrec as (Hc1 & Hp1 & Ha1).
    split; [|split].
    - intros i x Hi. destruct (Hc1 i x Hi) as [Hold|(j & -> & Hj)].
      + destruct (Hc i x Hold) as [?|(-> & -> & ->)]; [by left|].
        right. exists 0. split; [lia|done].
      + right. exists (S j). split; [lia|done].
    - intros p Hin. destruct (Hp1 p Hin) as [Hold|(j & Hj)].
      + destruct (Hp p Hold) as [?|(-> & ->)]; [by left|]. right. by exists 0.
      + right. by exists (S j).
    - intros a Hin. destruct (Ha1 a Hin) as [Hold|(j & Hj)].
      + destruct (Ha a Hold) as [?|(-> & ->)]; [by left|]. right. by exists 0.
      + right. by exists (S j). }
  destruct (decide (c = "C"%char)) as [->|Hc].
  { case_decide as Hi; [|done]. intros Hrec. apply (Hnext _ Hrec); simpl.
    - intros i x Hx. destruct (decide (i = i0)) as [->|Hne].
      + rewrite list_lookup_insert_eq in Hx by done. injection Hx as <-. by right.
      + rewrite list_lookup_insert_ne in Hx by done. by left.
    - intros p Hp. apply elem_of_difference in Hp as [? _]. by left.
    - by left. }
  destruct (decide (c = "P"%char)) as [->|Hp].
  { intros Hrec. apply (Hnext _ Hrec); simpl; [by left| |by left].
    intros p Hin. apply elem_of_union in Hin as [Hin|Hin]; [|by left].
    apply elem_of_singleton in Hin as ->. by right. }
  destruct (decide (c = "A"%char)) as [->|Ha].
  { intros Hrec. apply (Hnext _ Hrec); simpl; [by left|by left|].
    intros a Hin. apply elem_of_union in Hin as [Hin|Hin]; [|by left].
    apply elem_of_singleton in Hin as ->. by right. }
  intros Hrec. apply (Hnext _ Hrec); by left.
Qed.

Lemma feedback_of_lookup guess pat j a m :
  feedback_of guess pat !! j = Some (a, color m) →
  guess !! j = Some a ∧ pat !! j = Some m.
Proof.
  unfold feedback_of. intros H.
  apply lookup_zip_with_Some in H as (x & y & [= <- Hy] & Hx & Hpat).
  split; [done|]. rewrite list_lookup_fmap in Hpat.
  destruct (pat !! j) as [m'|]; simpl in Hpat; [|done].
  injection Hpat as <-. f_equal. by destruct m, m'.
Qed.

Lemma narrow_keeps_member g words kept wd :
  narrow g words = Some kept → wd ∈ words → keeps g wd = Some true → wd ∈ kept.
Proof.
  revert kept. induction words as [|x words IH]; intros kept; simpl.
  - intros _ Hin. by apply not_elem_of_nil in Hin.
  - destruct (keeps g x) as [b|] eqn:Hb; simpl; [|done].
    destruct (narrow g words) as [kept'|]; simpl; [|done].
    intros [= <-] Hin Hkeep. apply elem_of_cons in Hin as [->|Hin].
    + rewrite Hkeep in Hb. injection Hb as <-. left.
    + specialize (IH kept' eq_refl Hin Hkeep). destruct b; [by right|done].
Qed.

(** X17. On a fresh board of five-letter answers, after a five-letter guess
    without repeated letters and the truthful feedback for its pattern
    against an answer of the list, that answer is still a candidate. *)
Theorem first_guess_keeps_answer
    (answers : list word) (guess target : word) (pat : pattern) :
  Forall (λ wd : word, length wd = 5) answers →
  length guess = 5 → NoDup guess →
  target ∈ answers → unknown ∉ target →
  Oracle.get_pattern guess target = Some pat →
  ∃ g', update_game (new_game answers) (feedback_of guess pat) = Some g'
    ∧ target ∈ possible g'.
Proof.
  intros Hans Hlen Hnd Hin Hq Hpat.
  assert (length pat = 5) as Hpl by (by eapply get_pattern_length).
  assert (five_letter (new_game answers)) as Hfive by (by split).
  destruct (update_game_shrinks (new_game answers) (feedback_of guess pat) Hfive)
    as (g' & Hup & _ & _).
  { unfold feedback_of. rewrite length_zip_with, length_fmap. lia. }
  exists g'. split; [done|]. unfold update_game in Hup.
  destruct (record_feedback 0 (feedback_of guess pat) (new_game answers))
    as [g1|] eqn:H1; simpl in Hup; [|done].
  destruct (narrow g1 (possible g1)) as [kept|] eqn:Hk; simpl in Hup; [|done].
  injection Hup as <-. simpl.
  destruct (record_feedback_frame _ _ _ _ H1) as [Hposs Hclen].
  simpl in Hposs, Hclen.
  apply record_feedback_origin in H1 as (Hc & Hp & Ha).
  unfold new_game in Hc, Hp, Ha. cbn [correct present absent] in Hc, Hp, Ha.
  assert (length target = 5) as Htl.
  { rewrite Forall_forall in Hans. by apply Hans. }
  assert (Hcor : ∀ i c, correct g1 !! i = Some c → c ≠ unknown →
            guess !! i = Some c ∧ pat !! i = Some MC).
  { intros i c Hi Hne. destruct (Hc i c Hi) as [Hold|(j & -> & Hj)].
    - apply lookup_replicate in Hold as [-> _]. done.
    - by apply (feedback_of_lookup guess pat j c MC). }
  assert (Hpre : ∀ p, p ∈ present g1 → ∃ j, guess !! j = Some p ∧ pat !! j = Some MP).
  { intros p Hp'. destruct (Hp p Hp') as [Hold|(j & Hj)]; [set_solver|].
    exists j. by apply (feedback_of_lookup guess pat j p MP). }
  assert (Habs : ∀ a, a ∈ absent g1 → ∃ j, guess !! j = Some a ∧ pat !! j = Some MA).
  { intros a Ha'. destruct (Ha a Ha') as [Hold|(j & Hj)]; [set_solver|].
    exists j. by apply (feedback_of_lookup guess pat j a MA). }
  eapply narrow_keeps_member; [exact Hk | by rewrite Hposs |].
  rewrite keeps_consistent by (done || congruence).
  f_equal. apply bool_decide_eq_true. split; [|split; [|split]].
  - intros i c Hi Hne. destruct (Hcor i c Hi Hne) as [Hg Hm].
    apply (get_pattern_lookup_correct _ _ _ i Hpat) in Hm as (b & Hb & Ht).
    congruence.
  - intros p Hp'. destruct (Hpre p Hp') as (j & Hg & Hm).
    destruct (second_marks_present target guess
      (first_marks (zip guess target) (replicate 5 Blank))
      (first_counts (zip guess target) ∅) j p) as [Hpres _]; [done| |..].
    { rewrite first_marks_length, length_replicate.
      apply lookup_lt_Some in Hg. lia. }
    { apply first_marks_two_marks, blank_pattern_facts. }
    apply Hpres. apply get_pattern_unfold in Hpat as [_ ->]. done.
  - intros a Ha' Hat. exfalso. destruct (Habs a Ha') as (j & Hg & Hm).
    by apply (absent_mark_not_in_target guess target pat j a).
  - intros i l Hi Hl [Hne Hci].
    destruct (Hcor i l Hci Hne) as [Hg Hm].
    destruct (Hpre l Hl) as (j & Hg' & Hm').
    assert (i = j) as <- by (by eapply NoDup_lookup). congruence.
Qed.

End board_updates.

(** * Properties of the word lists *)

Section loading.

Import Text.

Lemma upper_char_facts c :
  upper_char (upper_char c) = upper_char c
  ∧ is_space (upper_char c) = is_space c
  ∧ is_lower (upper_char c) = false.
Proof.
  destruct c as [[] [] [] [] [] [] [] []]; vm_compute; auto.
Qed.

Lemma upper_upper s : upper (upper s) = upper s.
Proof.
  unfold upper. rewrite <- list_fmap_compose. apply list_fmap_ext.
  intros _ c _. apply upper_char_facts.
Qed.

Lemma lstrip_upper s : lstrip (upper s) = upper (lstrip s).
Proof.
  induction s as [|c s IH]; [done|]. simpl.
  destruct (upper_char_facts c) as (_ & -> & _). by destruct (is_space c).
Qed.

Lemma rstrip_upper s : rstrip (upper s) = upper (rstrip s).
Proof.
  unfold rstrip.
  assert (reverse (upper s) = upper (reverse s)) as ->.
  { unfold upper. by rewrite fmap_reverse. }
  rewrite lstrip_upper. unfold upper. by rewrite fmap_reverse.
Qed.

Lemma strip_upper s : strip (upper s) = upper (strip s).
Proof. unfold strip. by rewrite lstrip_upper, rstrip_upper. Qed.

Lemma lstrip_lstrip s : lstrip (lstrip s) = lstrip s.
Proof.
  induction s as [|c s IH]; [done|]. simpl.
  destruct (is_space c) eqn:Hc; [done|]. simpl. by rewrite Hc.
Qed.

Lemma lstrip_snoc s c : is_space c = false → lstrip (s ++ [c]) = lstrip s ++ [c].
Proof.
  intros Hc. induction s as [|x s IH]; simpl.
  - by rewrite Hc.
  - by destruct (is_space x).
Qed.

Lemma rstrip_rstrip s : rstrip (rstrip s) = rstrip s.
Proof. unfold rstrip. by rewrite reverse_involutive, lstrip_lstrip. Qed.

Lemma lstrip_rstrip s : lstrip (rstrip (lstrip s)) = rstrip (lstrip s).
Proof.
  destruct (lstrip s) as [|c r] eqn:Hs; [done|].
  assert (is_space c = false) as Hc.
  { clear -Hs. induction s as [|x s IH]; [done|]. simpl in Hs.
    destruct (is_space x) eqn:Hx; [by apply IH|]. by injection Hs as <- _. }
  assert (rstrip (c :: r) = c :: rstrip r) as ->.
  { unfold rstrip. rewrite reverse_cons, lstrip_snoc by done.
    by rewrite reverse_app. }
  simpl. by rewrite Hc.
Qed.

Lemma strip_strip s : strip (strip s) = strip s.
Proof. unfold strip. by rewrite lstrip_rstrip, rstrip_rstrip. Qed.

Lemma loaded_word_fixed line :
  strip (upper (strip line)) = upper (strip line)
  ∧ upper (upper (strip line)) = upper (strip line)
  ∧ length (upper (strip line)) = length (strip line).
Proof.
  split; [by rewrite strip_upper, strip_strip|].
  split; [apply upper_upper | apply length_fmap].
Qed.

(** X18. On a file of ASCII lines, [load_valid_words] ends the program
    exactly when no line has five characters once stripped (or the file is
    missing); otherwise it returns, in the order of the file, the stripped
    and upper-cased lines of stripped length five: a non-empty list of
    five-character words without lower-case letters. *)
Theorem load_valid_words_words (lines : list (list ascii)) :
  Forall (Forall ascii7) lines →
  load_valid_words None = None
  ∧ (load_valid_words (Some lines) = None
     ↔ Forall (λ line, length (strip line) ≠ 5) lines)
  ∧ ∀ words, load_valid_words (Some lines) = Some words →
      words ≠ []
      ∧ words = (λ line, upper (strip line))
                  <$> filter (λ line, length (strip line) = 5) lines
      ∧ Forall (λ wd : word, length wd = 5
                  ∧ Forall (λ c, is_lower c = false) wd) words.
Proof.
  intros _. split; [done|]. unfold load_valid_words. simpl.
  set (kept := filter (λ line, length (strip line) = 5) lines).
  assert (Forall (λ line, length (strip line) = 5) kept) as Hkept.
  { apply Forall_forall. intros line Hin. by apply list_elem_of_filter in Hin as [? _]. }
  split.
  - split.
    + intros H. apply Forall_forall. intros line Hin Hlen.
      assert (line ∈ kept) as Hk by (by apply list_elem_of_filter).
      destruct kept; [by apply not_elem_of_nil in Hk|done].
    + intros H. destruct kept as [|line kept'] eqn:Hk; [done|]. exfalso.
      assert (line ∈ filter (λ line, length (strip line) = 5) lines) as Hin.
      { fold kept. rewrite Hk. left. }
      apply list_elem_of_filter in Hin as [Hlen Hin].
      rewrite Forall_forall in H. by apply (H line).
  - intros words Hw.
    assert (words = (λ line, upper (strip line)) <$> kept ∧ words ≠ []) as [-> Hne].
    { destruct kept; simpl in *; [done|]. injection Hw as <-. done. }
    split; [done|]. split; [done|].
    apply Forall_fmap. eapply Forall_impl; [exact Hkept|]. simpl.
    intros line Hlen. split.
    + unfold upper. by rewrite length_fmap.
    + unfold upper. apply Forall_fmap, Forall_forall. intros c _. simpl.
      apply upper_char_facts.
Qed.

(** X19. Loading is stable: the words loaded from a file of ASCII lines,
    written one per line and loaded again, are loaded unchanged. *)
Theorem load_valid_words_again (lines : list (list ascii)) (words : list word) :
  Forall (Forall ascii7) lines →
  load_valid_words (Some lines) = Some words →
  load_valid_words (Some words) = Some words.
Proof.
  intros _ Hw.
  set (kept := filter (λ line, length (strip line) = 5) lines).
  assert (Forall (λ line, length (strip line) = 5) kept) as Hkept.
  { apply Forall_forall. intros line Hin. by apply list_elem_of_filter in Hin as [? _]. }
  assert (words = (λ line, upper (strip line)) <$> kept ∧ words ≠ []) as [Hwords Hne].
  { unfold load_valid_words in Hw. cbn [mbind option_bind] in Hw. fold kept in Hw.
    destruct ((λ line, upper (strip line)) <$> kept); [done|].
    by injection Hw as <-. }
  assert (Hfix : ∀ ws : list word,
            Forall (λ wd, strip wd = wd ∧ upper wd = wd ∧ length wd = 5) ws →
            (λ line, upper (strip line)) <$> filter (λ line, length (strip line) = 5) ws
            = ws).
  { induction 1 as [|wd ws (Hs & Hu & Hl) _ IH]; [done|].
    rewrite filter_cons, decide_True by (by rewrite Hs).
    rewrite fmap_cons, IH, Hs, Hu. done. }
  unfold load_valid_words. cbn [mbind option_bind]. rewrite Hfix.
  - by destruct words.
  - rewrite Hwords. apply Forall_fmap. eapply Forall_impl; [exact Hkept|]. simpl.
    intros line Hlen. destruct (loaded_word_fixed line) as (H1 & H2 & H3).
    split; [done|]. split; [done|]. congruence.
Qed.

Lemma load_five file words :
  load_valid_words file = Some words →
  words ≠ [] ∧ Forall (λ wd : word, length wd = 5) words.
Proof.
  destruct file as [ls|]; unfold load_valid_words; cbn [mbind option_bind]; [|done].
  set (kept := filter (λ line, length (strip line) = 5) ls).
  assert (Forall (λ line, length (strip line) = 5) kept) as Hkept.
  { apply Forall_forall. intros line Hin.
    by apply list_elem_of_filter in Hin as [? _]. }
  intros Hw.
  assert (words = (λ line, upper (strip line)) <$> kept ∧ words ≠ [])
    as [-> Hne].
  { destruct ((λ line, upper (strip line)) <$> kept); [done|].
    by injection Hw as <-. }
  split; [done|].
  apply Forall_fmap. eapply Forall_impl; [exact Hkept|]. simpl.
  intros line Hlen. unfold upper. by rewrite length_fmap.
Qed.

(** X20. When the solver is built from files of ASCII lines, it holds
    sixteen boards, each with all the loaded answers as candidates, five
    unknown positions and no letter recorded; answers and allowed guesses
    have five characters; and without a guess file the allowed guesses are
    the answers. *)
Theorem init_session
    (answer_lines : list (list ascii)) (guess_file : option (option (list (list ascii))))
    (s : solver) :
  Forall (Forall ascii7) answer_lines →
  (∀ guess_lines, guess_file = Some (Some guess_lines) →
     Forall (Forall ascii7) guess_lines) →
  init (Some answer_lines) guess_file = Some s →
  games s = replicate 16 (Game (answers s) (replicate 5 unknown) ∅ ∅)
  ∧ Forall five_letter (games s)
  ∧ Forall (λ wd : word, length wd = 5) (allowed s)
  ∧ (guess_file = None → allowed s = answers s).
Proof.
  intros _ _. unfold init.
  destruct (load_valid_words (Some answer_lines)) as [ans|] eqn:Hans;
    cbn [mbind option_bind]; [|done].
  destruct (load_five _ _ Hans) as [_ Hans5].
  destruct guess_file as [file|].
  - destruct (load_valid_words file) as [alw|] eqn:Halw;
      cbn [mbind option_bind]; [|done].
    destruct (load_five _ _ Halw) as [_ Halw5].
    intros [= <-]. cbn [games allowed answers].
    split; [done|]. split; [|by split].
    apply Forall_replicate. by split.
  - cbn [mbind option_bind]. intros [= <-]. cbn [games allowed answers].
    split; [done|]. split; [|by split].
    apply Forall_replicate. by split.
Qed.

End loading.

(** * Properties of the prompt and of the round loop *)

Section driver_facts.

Import Driver.

Lemma read_feedback_marks guess typed fb :
  read_feedback guess typed = Some (Some fb) →
  ∃ marks, length marks = 5 ∧ Forall (λ c, c ∈ w "CPA") marks ∧ fb = zip guess marks.
Proof.
  unfold read_feedback. repeat case_decide; try done.
  intros [= <-]. destruct_and!. eauto.
Qed.

Lemma get_feedback_input_reads guess inputs r rest :
  get_feedback_input guess inputs = Some (r, rest) →
  ∃ skipped typed, inputs = skipped ++ typed :: rest
    ∧ Forall (λ t, read_feedback guess t = None) skipped
    ∧ read_feedback guess typed = Some r.
Proof.
  induction inputs as [|typed inputs IH]; simpl; [done|].
  destruct (read_feedback guess typed) as [r'|] eqn:Hr.
  - intros [= <- <-]. exists [], typed. by repeat split.
  - intros H. destruct (IH H) as (skipped & t & -> & Hsk & Ht).
    exists (typed :: skipped), t. split; [done|]. split; [by constructor|done].
Qed.

(** X21. The prompt skips the entries it refuses and stops at the first one
    it accepts, returning the entries not yet read.  A feedback it returns
    pairs the letters of the guess, in order, with marks among C, P and A,
    five of them or as many as the guess has letters; so recording it on a
    board with five positions does not raise. *)
Theorem get_feedback_input_well_formed
    (guess : word) (inputs rest : list (list ascii))
    (r : option (list (ascii * ascii))) :
  get_feedback_input guess inputs = Some (r, rest) →
  (∃ skipped typed, inputs = skipped ++ typed :: rest
     ∧ Forall (λ t, read_feedback guess t = None) skipped
     ∧ read_feedback guess typed = Some r)
  ∧ ∀ fb, r = Some fb →
      length fb = length guess `min` 5
      ∧ (∀ j a c, fb !! j = Some (a, c) →
           guess !! j = Some a ∧ c ∈ w "CPA")
      ∧ ∀ g, length (correct g) = 5 → is_Some (Board.record_feedback 0 fb g).
Proof.
  intros H. pose proof (get_feedback_input_reads _ _ _ _ H) as Hreads.
  split; [exact Hreads|]. intros fb ->.
  destruct Hreads as (_ & typed & _ & _ & Hr).
  apply read_feedback_marks in Hr as (marks & Hlen & Hmarks & ->).
  assert (length (zip guess marks) = length guess `min` 5) as Hl.
  { by rewrite length_zip_with, Hlen. }
  split; [done|]. split.
  - intros j a c Hj. apply lookup_zip_with_Some in Hj as (x & y & [= <- <-] & Hx & Hy).
    split; [done|]. rewrite Forall_forall in Hmarks. apply Hmarks.
    by eapply list_elem_of_lookup_2.
  - intros g Hg. apply record_feedback_total. rewrite Hl, Hg. simpl. lia.
Qed.

(** *** A round only narrows the boards *)

Lemma narrowed_all_refl games : narrowed_all games games.
Proof.
  split; [done|]. intros i g g' Hg Hg'. assert (g' = g) as -> by congruence.
  by split.
Qed.

Lemma narrowed_all_trans games1 games2 games3 :
  narrowed_all games1 games2 → narrowed_all games2 games3 →
  narrowed_all games1 games3.
Proof.
  intros [Hl1 H1] [Hl2 H2]. split; [congruence|].
  intros i g g3 Hg Hg3.
  destruct (lookup_lt_is_Some_2 games2 i) as [g2 Hg2].
  { rewrite Hl1. by eapply lookup_lt_Some. }
  destruct (H1 i g g2 Hg Hg2) as [Hc1 Hs1].
  destruct (H2 i g2 g3 Hg2 Hg3) as [Hc2 Hs2].
  split; [congruence|]. by etrans.
Qed.

Lemma narrowed_all_insert games i g g' :
  games !! i = Some g → narrowed g g' → narrowed_all games (<[i := g']> games).
Proof.
  intros Hg Hn. split; [apply length_insert|].
  intros j x x' Hx Hx'. destruct (decide (j = i)) as [->|Hne].
  - rewrite list_lookup_insert_eq in Hx' by (by eapply lookup_lt_Some).
    assert (x = g) as -> by congruence. by injection Hx' as <-.
  - rewrite list_lookup_insert_ne in Hx' by done.
    assert (x' = x) as -> by congruence. by split.
Qed.

Lemma narrowed_all_clean games :
  narrowed_all games (Board.clean_constraints games).
Proof.
  unfold Board.clean_constraints. split; [apply length_fmap|].
  intros i g g' Hg Hg'. rewrite list_lookup_fmap, Hg in Hg'.
  injection Hg' as <-. by split.
Qed.

Lemma get_feedback_input_suffix guess inputs r rest :
  get_feedback_input guess inputs = Some (r, rest) →
  rest `suffix_of` inputs ∧ length rest < length inputs.
Proof.
  intros H. apply get_feedback_input_reads in H as (skipped & typed & -> & _).
  split.
  - exists (skipped ++ [typed]). by rewrite <- (assoc_L (++)).
  - rewrite length_app. simpl. lia.
Qed.

Lemma collect_narrows guess idxs : ∀ games fbs inputs games1 fbs1 inputs1,
  collect guess idxs games fbs inputs = Some (games1, fbs1, inputs1) →
  narrowed_all games games1
  ∧ length fbs1 = length fbs
  ∧ inputs1 `suffix_of` inputs
  ∧ (Forall (λ fb : list (ascii * ascii), length fb ≤ 5) fbs →
     Forall (λ fb : list (ascii * ascii), length fb ≤ 5) fbs1).
Proof.
  induction idxs as [|idx idxs IH]; intros games fbs inputs games1 fbs1 inputs1; simpl.
  { intros [= <- <- <-]. split; [apply narrowed_all_refl|]. by repeat split. }
  destruct (get_feedback_input guess inputs) as [[r rest]|] eqn:Hin; simpl; [|done].
  pose proof (get_feedback_input_suffix _ _ _ _ Hin) as [Hsuf _].
  destruct r as [fb|].
  - case_decide as Hidx; [|done]. intros H.
    apply IH in H as (Hn & Hl & Hs & Hf). rewrite length_insert in Hl.
    split; [done|]. split; [done|]. split; [by etrans|].
    intros Hall. apply Hf. apply Forall_insert; [done|].
    apply get_feedback_input_reads in Hin as (_ & typed & _ & _ & Hr).
    apply read_feedback_marks in Hr as (marks & Hm & _ & ->).
    rewrite length_zip_with. lia.
  - destruct (games !! idx) as [g|] eqn:Hg; simpl; [|done]. intros H.
    apply IH in H as (Hn & Hl & Hs & Hf).
    split; [|split; [done|split; [by etrans|done]]].
    eapply narrowed_all_trans; [|exact Hn].
    apply narrowed_all_insert with (g := g); [done|].
    split; [done|]. simpl. apply sublist_nil_l.
Qed.

Lemma play_round_narrows allowed games inputs c go games' inputs' c' :
  play_round allowed games inputs c = Some ((go, games', inputs'), c') →
  narrowed_all games games'
  ∧ inputs' `suffix_of` inputs
  ∧ (go = true → Exists (λ g, possible g ≠ []) games').
Proof.
  unfold play_round, Cache.bind.
  destruct (Selector.get_best_guess allowed games c) as [[best c1]|]; [|done].
  assert (Hstop : Cache.ret (false, games, inputs) c1 = Some (go, games', inputs', c') →
            narrowed_all games games' ∧ inputs' `suffix_of` inputs
            ∧ (go = true → Exists (λ g, possible g ≠ []) games')).
  { intros [= <- <- <- <-]. split; [apply narrowed_all_refl|]. by split. }
  destruct best as [[|a guess]|]; [exact Hstop| |exact Hstop].
  unfold lift.
  destruct (collect (a :: guess) (active_from 0 games) games (replicate 16 []) inputs)
    as [[[games1 fbs] inputs1]|] eqn:Hcol; [|done].
  destruct (Board.update_games games1 fbs) as [games2|] eqn:Hup; [|done].
  intros [= <- <- <- <-].
  apply collect_narrows in Hcol as (Hn1 & _ & Hsuf & _).
  apply update_from_related in Hup as (Hl2 & Hn2 & _ & _).
  split; [|split; [done|]].
  - eapply narrowed_all_trans; [exact Hn1|].
    eapply narrowed_all_trans; [by split|apply narrowed_all_clean].
  - intros Hgo. apply existsb_exists in Hgo as (g & Hin & Hact).
    apply Exists_exists. exists g. split; [by apply list_elem_of_In|].
    unfold active in Hact. by destruct (possible g).
Qed.

(** X22. Whenever a round returns, it returns as many boards as it got,
    each with its recorded positions as long as before and with candidates
    that are a sublist of the old ones; what is left of the typed entries is
    a suffix of what there was; and the loop goes on only if some board
    still has a candidate. *)
Theorem play_round_monotone
    (allowed : list word) (games games' : list game)
    (inputs inputs' : list (list ascii)) (c c' : Cache.cache) (go : bool) :
  play_round allowed games inputs c = Some ((go, games', inputs'), c') →
  length games' = length games
  ∧ (∀ i g g', games !! i = Some g → games' !! i = Some g' →
       length (correct g') = length (correct g)
       ∧ possible g' `sublist_of` possible g)
  ∧ inputs' `suffix_of` inputs
  ∧ (go = true → Exists (λ g, possible g ≠ []) games').
Proof.
  intros H. apply play_round_narrows in H as ([Hl Hn] & Hs & Hgo).
  split; [done|]. split; [exact Hn|]. by split.
Qed.

Lemma attempts_narrow n : ∀ allowed games inputs c games' inputs' c',
  attempts n allowed games inputs c = Some ((games', inputs'), c') →
  narrowed_all games games' ∧ inputs' `suffix_of` inputs.
Proof.
  induction n as [|n IH]; intros allowed games inputs c games' inputs' c'; simpl.
  { intros [= <- <- <-]. split; [apply narrowed_all_refl|done]. }
  unfold Cache.bind.
  destruct (play_round allowed games inputs c) as [[[[go games1] inputs1] c1]|] eqn:Hr;
    [|done].
  apply play_round_narrows in Hr as (Hn1 & Hs1 & _).
  destruct go.
  - intros H. apply IH in H as [Hn2 Hs2].
    split; [by eapply narrowed_all_trans | by etrans].
  - by intros [= <- <- <-].
Qed.

Lemma main_unfold file inputs :
  main file inputs
  = match load_valid_words file with
    | Some loaded => fst <$> attempts 21 loaded (new_session loaded) inputs ∅
    | None => None
    end.
Proof.
  unfold main, init. destruct (load_valid_words file); reflexivity.
Qed.

(** X23. Whenever [main] returns on a file of ASCII lines, the answers
    were loaded and the session ends with sixteen boards of five recorded
    positions whose candidates are sublists of the loaded answers: no round
    adds a candidate or reorders them. *)
Theorem main_keeps_sublists
    (lines : list (list ascii)) (inputs rest : list (list ascii))
    (games' : list game) :
  Forall (Forall Text.ascii7) lines →
  main (Some lines) inputs = Some (games', rest) →
  ∃ loaded, load_valid_words (Some lines) = Some loaded
    ∧ length games' = 16
    ∧ Forall (λ g, possible g `sublist_of` loaded ∧ length (correct g) = 5) games'
    ∧ rest `suffix_of` inputs.
Proof.
  intros _. rewrite main_unfold.
  destruct (load_valid_words (Some lines)) as [loaded|]; [|done].
  destruct (attempts 21 loaded (new_session loaded) inputs ∅)
    as [[[games1 inputs1] c1]|] eqn:Hrun; [|done].
  intros [= <- <-]. exists loaded. split; [done|].
  apply attempts_narrow in Hrun as [[Hl Hn] Hs].
  unfold new_session in Hl, Hn. rewrite length_replicate in Hl.
  split; [done|]. split; [|done].
  apply Forall_lookup. intros i g' Hg'.
  assert (i < 16) as Hi by (rewrite <- Hl; by eapply lookup_lt_Some).
  destruct (Hn i (new_game loaded) g') as [Hc Hsub]; [|done|].
  { by apply lookup_replicate_2. }
  split; [done|]. rewrite Hc. reflexivity.
Qed.

(** *** A round on accepted entries *)

Lemma read_feedback_accepted guess typed :
  accepted typed → is_Some (read_feedback guess typed).
Proof.
  unfold accepted, read_feedback. repeat case_decide; eauto.
Qed.

Lemma get_feedback_input_accepted guess typed rest :
  accepted typed →
  ∃ r, get_feedback_input guess (typed :: rest) = Some (r, rest).
Proof.
  intros H. destruct (read_feedback_accepted guess typed H) as [r Hr].
  exists r. simpl. by rewrite Hr.
Qed.

Lemma active_from_bound games : ∀ i,
  Forall (λ idx, idx < i + length games) (active_from i games)
  ∧ length (active_from i games) ≤ length games.
Proof.
  induction games as [|g games IH]; intros i; simpl; [split; [constructor|lia]|].
  destruct (IH (S i)) as [Hb Hl].
  assert (Forall (λ idx, idx < i + S (length games)) (active_from (S i) games)) as Hb'.
  { eapply Forall_impl; [exact Hb|]. simpl. lia. }
  destruct (active g); simpl.
  - split; [constructor; [lia|done] | lia].
  - split; [done|lia].
Qed.

Lemma collect_accepted guess idxs : ∀ games fbs inputs,
  Forall accepted inputs → length idxs ≤ length inputs →
  Forall (λ idx, idx < length games) idxs →
  Forall (λ idx, idx < length fbs) idxs →
  ∃ games1 fbs1,
    collect guess idxs games fbs inputs
    = Some (games1, fbs1, drop (length idxs) inputs).
Proof.
  induction idxs as [|idx idxs IH]; intros games fbs inputs Hacc Hlen Hg Hf; simpl.
  { by exists games, fbs. }
  destruct inputs as [|typed inputs]; simpl in Hlen; [lia|].
  apply Forall_cons in Hacc as [Ht Hacc].
  apply Forall_cons in Hg as [Hidx Hg]. apply Forall_cons in Hf as [Hidx' Hf].
  destruct (get_feedback_input_accepted guess typed inputs Ht) as [r Hr].
  rewrite Hr. simpl. destruct r as [fb|].
  - rewrite decide_True by done.
    apply IH; [done|lia|done|by rewrite length_insert].
  - destruct (lookup_lt_is_Some_2 games idx Hidx) as [g ->]. simpl.
    apply IH; [done|lia|by rewrite length_insert|done].
Qed.

Lemma get_best_guess_returns allowed games c :
  Forall (λ wd : word, length wd ≤ 5) allowed →
  ∃ r c', Selector.get_best_guess allowed games c = Some (r, c')
    ∧ (∀ wd, r = Some wd → wd ∈ allowed)
    ∧ (r = None → allowed = [] ∨ active_from 0 games = []).
Proof.
  intros Hlen. unfold Selector.get_best_guess.
  assert (Hact : ∀ gs i, filter (λ g, active g = true) gs = [] → active_from i gs = []).
  { induction gs as [|g gs IH]; intros i; [done|]. rewrite filter_cons. simpl.
    destruct (active g); [by rewrite decide_True|]. rewrite decide_False by done.
    apply IH. }
  destruct (filter (λ g, active g = true) games) as [|g0 act] eqn:Hf.
  { exists None, c. split; [done|]. split; [done|]. intros _. right. by apply Hact. }
  destruct allowed as [|wd rest].
  { exists None, c. simpl. split; [done|]. split; [done|]. by left. }
  apply Forall_cons in Hlen as [Hwd Hrest].
  change (take 2316 (wd :: rest)) with (wd :: take 2315 rest). cbn [Selector.scan].
  destruct (calculate_entropy_returns wd (g0 :: act) c Hwd) as (s & c1 & Hrun).
  rewrite (bind_Some _ _ _ _ _ Hrun). cbn [Selector.improves].
  destruct (scan_total (g0 :: act) (take 2315 rest) (Some wd) (Some s) c1)
    as (r & c' & Hscan & Hr).
  { by apply Forall_take. }
  exists r, c'. split; [done|].
  assert (∃ wd', r = Some wd' ∧ wd' ∈ wd :: rest) as (wd' & -> & Hin).
  { destruct Hr as [->|(wd' & -> & Hin)].
    - exists wd. split; [done|left].
    - exists wd'. split; [done|]. right.
      apply elem_of_take in Hin as (i & Hi & _). by eapply list_elem_of_lookup_2. }
  split; [|done]. by intros ? [= <-].
Qed.

Lemma play_round_total
    (allowed : list word) (games : list game) (inputs : list (list ascii))
    (c : Cache.cache) :
  length games = 16 → Forall five_letter games →
  allowed ≠ [] → Forall (λ wd : word, length wd = 5) allowed →
  Forall accepted inputs → 16 ≤ length inputs →
  ∃ go games' c',
    play_round allowed games inputs c
    = Some ((go, games', drop (length (active_from 0 games)) inputs), c').
Proof.
  intros H16 Hfive Hne Hall Hacc Hin.
  destruct (get_best_guess_returns allowed games c) as (best & c1 & Hbest & Hmem & Hnone).
  { eapply Forall_impl; [exact Hall|]. simpl. lia. }
  unfold play_round, Cache.bind. rewrite Hbest.
  destruct best as [guess|].
  2:{ destruct (Hnone eq_refl) as [?|Hno]; [done|]. rewrite Hno. simpl.
      by exists false, games, c1. }
  assert (length guess = 5) as Hg.
  { rewrite Forall_forall in Hall. apply Hall. by apply Hmem. }
  destruct guess as [|a guess]; [done|].
  destruct (active_from_bound games 0) as [Hb Hl]. simpl in Hb.
  destruct (collect_accepted (a :: guess) (active_from 0 games) games
              (replicate 16 []) inputs) as (games1 & fbs & Hcol);
    [done|lia|done|by rewrite length_replicate, <- H16|].
  unfold lift. rewrite Hcol.
  pose proof (collect_narrows _ _ _ _ _ _ _ _ Hcol) as ([Hl1 Hn1] & Hlf & _ & Hf5).
  rewrite length_replicate in Hlf.
  destruct (update_from_shrinks fbs 0 games1) as (games2 & Hup & _).
  - apply Forall_lookup. intros i g1 Hg1.
    destruct (lookup_lt_is_Some_2 games i) as [g0 Hg0].
    { rewrite <- Hl1. by eapply lookup_lt_Some. }
    eapply narrowed_five_letter; [|by eapply Hn1].
    by eapply Forall_lookup_1.
  - apply Hf5. apply Forall_replicate. simpl. lia.
  - simpl. lia.
  - unfold Board.update_games. rewrite Hup. eauto.
Qed.

(** X24. On sixteen boards of five-letter candidates, with a non-empty list
    of five-letter allowed guesses and typed entries that the prompt accepts,
    at least sixteen of them, a round returns without raising, and it has
    read exactly one entry for each board that was active when it began. *)
Theorem play_round_returns
    (allowed : list word) (games : list game) (inputs : list (list ascii))
    (c : Cache.cache) :
  length games = 16 → Forall five_letter games →
  allowed ≠ [] → Forall (λ wd : word, length wd = 5) allowed →
  Forall accepted inputs → 16 ≤ length inputs →
  ∃ go games' c',
    play_round allowed games inputs c
    = Some ((go, games', drop (length (active_from 0 games)) inputs), c').
Proof. apply play_round_total. Qed.

Lemma attempts_total n : ∀ allowed games inputs c,
  length games = 16 → Forall five_letter games →
  allowed ≠ [] → Forall (λ wd : word, length wd = 5) allowed →
  Forall accepted inputs → 16 * n ≤ length inputs →
  is_Some (attempts n allowed games inputs c).
Proof.
  induction n as [|n IH]; intros allowed games inputs c H16 Hfive Hne Hall Hacc Hin;
    simpl; [by eauto|].
  destruct (play_round_total allowed games inputs c H16 Hfive Hne Hall Hacc)
    as (go & games' & c' & Hround); [lia|].
  unfold Cache.bind. rewrite Hround.
  destruct go; [|by eauto].
  pose proof (play_round_narrows _ _ _ _ _ _ _ _ Hround) as ([Hl Hn] & _ & _).
  pose proof (active_from_bound games 0) as [_ Hk].
  apply IH; [congruence| |done|done|by apply Forall_drop|].
  - apply Forall_lookup. intros i g' Hg'.
    destruct (lookup_lt_is_Some_2 games i) as [g Hg].
    { rewrite <- Hl. by eapply lookup_lt_Some. }
    eapply narrowed_five_letter; [|by eapply Hn]. by eapply Forall_lookup_1.
  - rewrite length_drop. lia.
Qed.

Lemma main_total file inputs loaded :
  load_valid_words file = Some loaded →
  Forall accepted inputs → 336 ≤ length inputs →
  is_Some (main file inputs).
Proof.
  intros Hload Hacc Hin. rewrite main_unfold, Hload.
  destruct (load_five _ _ Hload) as [Hne Hfive].
  destruct (attempts_total 21 loaded (new_session loaded) inputs ∅) as [r Hr];
    [apply length_replicate| |done|done|done|lia|].
  - apply Forall_replicate. by split.
  - rewrite Hr. eauto.
Qed.

(** X26. When the file has ASCII lines, one of them of five characters once
    stripped, and the player types at least 336 entries that the prompt
    accepts (sixteen for each of the twenty-one attempts), [main] returns:
    no step of the session raises. *)
Theorem main_returns
    (lines : list (list ascii)) (line : list ascii) (inputs : list (list ascii)) :
  Forall (Forall Text.ascii7) lines →
  line ∈ lines → length (Text.strip line) = 5 →
  Forall accepted inputs → 336 ≤ length inputs →
  is_Some (main (Some lines) inputs).
Proof.
  intros _ Hin Hlen Hacc H336.
  destruct (load_valid_words (Some lines)) as [loaded|] eqn:Hload.
  - by eapply main_total.
  - exfalso. unfold load_valid_words in Hload. cbn [mbind option_bind] in Hload.
    assert (line ∈ filter (λ line, length (Text.strip line) = 5) lines) as Hk.
    { by apply list_elem_of_filter. }
    destruct (filter (λ line, length (Text.strip line) = 5) lines);
      [by apply not_elem_of_nil in Hk|done].
Qed.

(** *** The SOLVED entry *)

Lemma read_feedback_solved guess typed :
  filter (λ c, c ≠ " "%char) (Text.upper typed) = w "SOLVED" →
  read_feedback guess typed = Some None.
Proof. intros H. unfold read_feedback. by rewrite decide_True. Qed.

Lemma narrowed_all_empty games games' i g :
  narrowed_all games games' → games !! i = Some g → possible g = [] →
  ∃ g', games' !! i = Some g' ∧ possible g' = [].
Proof.
  intros [Hl Hn] Hg Hp.
  destruct (lookup_lt_is_Some_2 games' i) as [g' Hg'].
  { rewrite Hl. by eapply lookup_lt_Some. }
  exists g'. split; [done|]. destruct (Hn i g g' Hg Hg') as [_ Hsub].
  rewrite Hp in Hsub. by apply sublist_nil_r.
Qed.

Lemma collect_solved guess idxs : ∀ k games fbs inputs games1 fbs1 inputs1 idx typed,
  collect guess idxs games fbs inputs = Some (games1, fbs1, inputs1) →
  Forall accepted inputs →
  idxs !! k = Some idx → inputs !! k = Some typed →
  filter (λ c, c ≠ " "%char) (Text.upper typed) = w "SOLVED" →
  ∃ g1, games1 !! idx = Some g1 ∧ possible g1 = [].
Proof.
  induction idxs as [|i0 idxs IH];
    intros k games fbs inputs games1 fbs1 inputs1 idx typed Hcol Hacc Hk Hin Hs;
    [done|].
  destruct inputs as [|t0 inputs]; [done|].
  apply Forall_cons in Hacc as [Ht0 Hacc].
  destruct (get_feedback_input_accepted guess t0 inputs Ht0) as [r Hr].
  pose proof Hr as Hr'. simpl in Hr'.
  cbn [collect] in Hcol. rewrite Hr in Hcol. simpl in Hcol.
  destruct k as [|k]; simpl in Hk, Hin.
  - injection Hk as ->. injection Hin as ->.
    rewrite (read_feedback_solved guess typed Hs) in Hr'. injection Hr' as <-.
    destruct (games !! idx) as [g|] eqn:Hg; simpl in Hcol; [|done].
    apply collect_narrows in Hcol as (Hn & _).
    apply (narrowed_all_empty _ _ idx (Game [] (correct g) (present g) (absent g)) Hn);
      [|done].
    apply list_lookup_insert_eq. by eapply lookup_lt_Some.
  - destruct r as [fb|].
    + case_decide; [|done]. by eapply IH.
    + destruct (games !! i0) as [g|]; simpl in Hcol; [|done]. by eapply IH.
Qed.

(** X25. When every typed entry is one the prompt accepts and the list of
    allowed guesses is a non-empty list of five-letter words, the entry
    SOLVED (in any letter case, with or without blanks) typed for the [k]-th
    active board leaves that board without candidates at the end of the
    round. *)
Theorem solved_entry_empties_board
    (allowed : list word) (games games' : list game)
    (inputs inputs' : list (list ascii)) (c c' : Cache.cache) (go : bool)
    (k i : nat) (typed : list ascii) :
  allowed ≠ [] → Forall (λ wd : word, length wd = 5) allowed →
  Forall accepted inputs →
  play_round allowed games inputs c = Some ((go, games', inputs'), c') →
  active_from 0 games !! k = Some i → inputs !! k = Some typed →
  filter (λ c, c ≠ " "%char) (Text.upper typed) = w "SOLVED" →
  ∃ g', games' !! i = Some g' ∧ possible g' = [].
Proof.
  intros Hne Hall Hacc Hround Hk Hin Hs.
  destruct (get_best_guess_returns allowed games c) as (best & c1 & Hbest & Hmem & Hnone).
  { eapply Forall_impl; [exact Hall|]. simpl. lia. }
  unfold play_round, Cache.bind in Hround. rewrite Hbest in Hround.
  destruct best as [guess|].
  2:{ destruct (Hnone eq_refl) as [?|Hno]; [done|]. by rewrite Hno in Hk. }
  assert (length guess = 5) as Hg.
  { rewrite Forall_forall in Hall. apply Hall. by apply Hmem. }
  destruct guess as [|a guess]; [done|]. unfold lift in Hround.
  destruct (collect (a :: guess) (active_from 0 games) games (replicate 16 []) inputs)
    as [[[games1 fbs] inputs1]|] eqn:Hcol; [|done].
  destruct (Board.update_games games1 fbs) as [games2|] eqn:Hup; [|done].
  injection Hround as <- <- <- <-.
  destruct (collect_solved _ _ _ _ _ _ _ _ _ _ _ Hcol Hacc Hk Hin Hs) as (g1 & Hg1 & Hp1).
  apply update_from_related in Hup as (Hl2 & Hn2 & _ & _).
  eapply narrowed_all_empty; [|exact Hg1|exact Hp1].
  eapply narrowed_all_trans; [by split|apply narrowed_all_clean].
Qed.

End driver_facts.

(** * The theorems at work on the sample session *)

Section examples.

Import Oracle Cache Entropy Selector Board Rules.

Lemma sample_game_five_letter : five_letter sample_game.
Proof. split; [reflexivity|]. repeat constructor. Qed.

Lemma sample_game_lettered : lettered sample_game.
Proof. unfold lettered. apply (bool_decide_unpack _). vm_compute. exact I. Qed.

Example speed_erase :
  get_pattern (w "SPEED") (w "ERASE") = Some [MP; MA; MP; MP; MA].
Proof. vm_compute. reflexivity. Qed.

Example same_word : get_pattern (w "TRACE") (w "TRACE") = Some [MC; MC; MC; MC; MC].
Proof. vm_compute. reflexivity. Qed.

Example six_letters : get_pattern (w "CRANES") (w "TRACES") = None.
Proof. vm_compute. reflexivity. Qed.

Example cached_then_hit :
  fst <$> ask_twice (w "CRANE") (w "TRACE") ∅
  = Some ([MP; MC; MC; MA; MC], [MP; MC; MC; MA; MC]).
Proof. vm_compute. reflexivity. Qed.

Example all_correct :
  possible <$> update_game sample_game (fb "CRANE" "CCCCC") = Some [w "CRANE"].
Proof. vm_compute. reflexivity. Qed.

Example cleaning :
  clean_constraints
    [Game [] (w "C????") {[ "C"%char; "R"%char ]} {[ "C"%char; "R"%char; "Z"%char ]}]
  = [Game [] (w "C????") {[ "R"%char ]} {[ "Z"%char ]}].
Proof. vm_compute. reflexivity. Qed.

Example sample_narrowing :
  possible <$> update_game sample_game (fb "CRANE" "PCCAC")
  = Some [w "TRACE"; w "CRATE"].
Proof. vm_compute. reflexivity. Qed.

Example sample_clash :
  possible <$> update_game sample_game (fb "EERIE" "CPAAA") = Some [].
Proof. vm_compute. reflexivity. Qed.

Lemma update_game_filters_witness :
  ∃ g1, record_feedback 0 (fb "CRANE" "PCCAC") sample_game = Some g1
    ∧ update_game sample_game (fb "CRANE" "PCCAC")
      = Some (Game (filter (consistent g1) (possible sample_game))
                   (correct g1) (present g1) (absent g1)).
Proof.
  apply (update_game_filters sample_game (fb "CRANE" "PCCAC")).
  - exact sample_game_five_letter.
  - exact sample_game_lettered.
  - simpl. lia.
Defined.

Lemma update_games_monotone_witness :
  ∃ games',
    update_games sample_session sample_round = Some games'
    ∧ length games' = length sample_session
    ∧ ∀ i g g', sample_session !! i = Some g → games' !! i = Some g' →
        possible g' `sublist_of` possible g
        ∧ (sample_round !! i = Some [] → g' = g).
Proof.
  apply (update_games_monotone sample_session sample_round).
  - apply Forall_replicate. exact sample_game_five_letter.
  - constructor; [simpl; lia|]. apply Forall_replicate. simpl. lia.
  - simpl. lia.
Defined.

Lemma clash_empties_board_witness :
  update_game sample_game (fb "EERIE" "CPAAA")
  = Some (Game [] (correct clashed_game) (present clashed_game) (absent clashed_game))
  ∧ ∀ wd, wd ∈ possible sample_game →
      (wd !! 0%nat = Some "E"%char → avoids_present clashed_game 0 wd = Some false)
      ∧ (wd !! 0%nat ≠ Some "E"%char →
         matches_correct 0 (correct clashed_game) wd = Some false).
Proof.
  apply (clash_empties_board sample_game (fb "EERIE" "CPAAA") clashed_game 0 "E"%char).
  - exact sample_game_five_letter.
  - vm_compute. reflexivity.
  - reflexivity.
  - discriminate.
  - apply (bool_decide_unpack _). vm_compute. exact I.
Defined.

Lemma calculate_entropy_nonneg_witness :
  ∃ r c', calculate_entropy (w "CRANE") sample_session ∅ = Some (r, c')
    ∧ (0 <= r)%R
    ∧ calculate_entropy (w "CRANE") (filter (λ g, active g = true) sample_session) ∅
      = Some (r, c')
    ∧ (Forall (λ g, length (possible g) ≤ 1) sample_session → r = 0%R).
Proof.
  apply (calculate_entropy_nonneg (w "CRANE") sample_session ∅). simpl. lia.
Defined.

Lemma get_best_guess_none_iff_witness :
  ∃ r c', get_best_guess sample_answers sample_session ∅ = Some (r, c')
    ∧ (r = None ↔ Forall (λ g, possible g = []) sample_session)
    ∧ (Exists (λ g, possible g ≠ []) sample_session →
       ∃ wd, r = Some wd ∧ wd ∈ take 2316 sample_answers).
Proof.
  apply (get_best_guess_none_iff sample_answers sample_session ∅).
  - discriminate.
  - repeat constructor; simpl; lia.
Defined.

(** Scores one bit apart: the later word has the greater double and is
    returned; on equal scores the first word stays. *)
Example close_scores_second :
  get_best_guess_double close_scorer close_pair sample_session ∅
  = Some (Some (w "QQQQS"), ∅).
Proof. vm_compute. reflexivity. Qed.

Example tied_scores_first :
  get_best_guess_double tied_scorer close_pair sample_session ∅
  = Some (Some (w "MQQQQ"), ∅).
Proof. vm_compute. reflexivity. Qed.


End examples.

(** * The further properties at work *)

Section more_examples.

Import Oracle Cache Entropy Selector Board Rules Text Driver.

Example loaded_sample :
  load_valid_words (Some sample_lines) = Some [w "CRANE"; w "TRACE"; w "REACT"].
Proof. vm_compute. reflexivity. Qed.

Example prompt_sample :
  get_feedback_input (w "CRANE") [w "cpa"; w "c p a a p"; w "AAAAA"]
  = Some (Some (fb "CRANE" "CPAAP"), [w "AAAAA"]).
Proof. vm_compute. reflexivity. Qed.

Lemma sample_lines_ascii : Forall (Forall ascii7) sample_lines.
Proof. repeat constructor; vm_compute; lia. Qed.

Lemma sample_inputs_accepted : Forall accepted sample_inputs.
Proof.
  constructor; [by eexists; vm_compute|].
  apply Forall_replicate. by eexists; vm_compute.
Qed.

Lemma warm_cache_sound : sound warm_cache.
Proof. apply cache_after_sound, sound_empty. Qed.

Lemma get_pattern_positions_witness :
  ([MP; MA; MP; MP; MA] !! 0 = Some MC
   ↔ ∃ a, w "SPEED" !! 0 = Some a ∧ w "ERASE" !! 0 = Some a)
  ∧ ([MP; MA; MP; MP; MA] !! 0 = Some Blank ↔ length (w "SPEED") ≤ 0 < 5).
Proof.
  apply (get_pattern_positions (w "SPEED") (w "ERASE")). vm_compute. reflexivity.
Defined.

Lemma get_pattern_all_correct_witness :
  get_pattern (w "CRANE") (w "TRACE") = Some (replicate 5 MC)
  ↔ w "CRANE" = w "TRACE".
Proof. apply (get_pattern_all_correct (w "CRANE") (w "TRACE")); reflexivity. Defined.

Lemma get_pattern_present_witness :
  ([MP; MA; MP; MP; MA] !! 0 = Some MP
   → "S"%char ∈ w "ERASE" ∧ w "ERASE" !! 0 ≠ Some "S"%char)
  ∧ ("S"%char ∉ w "ERASE" → [MP; MA; MP; MP; MA] !! 0 = Some MA).
Proof.
  apply (get_pattern_present (w "SPEED") (w "ERASE")).
  - vm_compute. reflexivity.
  - reflexivity.
Defined.

Lemma get_pattern_credit_witness :
  credited "E"%char (w "SPEED") [MP; MA; MP; MP; MA]
  = total_in_target "E"%char (w "SPEED") `min` total_in_target "E"%char (w "ERASE").
Proof.
  apply (get_pattern_credit (w "SPEED") (w "ERASE")). vm_compute. reflexivity.
Defined.

Lemma calculate_entropy_cache_free_witness :
  fst <$> calculate_entropy (w "CRANE") sample_session ∅
  = fst <$> calculate_entropy (w "CRANE") sample_session warm_cache
  ∧ ∀ r c', calculate_entropy (w "CRANE") sample_session ∅ = Some (r, c') → sound c'.
Proof.
  apply (calculate_entropy_cache_free (w "CRANE") sample_session ∅ warm_cache).
  - exact sound_empty.
  - exact warm_cache_sound.
Defined.

Lemma get_best_guess_cache_free_witness :
  fst <$> get_best_guess sample_answers sample_session ∅
  = fst <$> get_best_guess sample_answers sample_session warm_cache.
Proof.
  apply (get_best_guess_cache_free sample_answers sample_session ∅ warm_cache).
  - exact sound_empty.
  - exact warm_cache_sound.
Defined.

Lemma calculate_entropy_no_split_witness :
  ∃ c', calculate_entropy (w "CRANE") [new_game [w "TRACE"; w "TRACE"]] ∅
        = Some (0%R, c').
Proof.
  apply (calculate_entropy_no_split (w "CRANE") [new_game [w "TRACE"; w "TRACE"]] ∅).
  - exact sound_empty.
  - simpl. lia.
  - constructor; [|constructor]. simpl. intros t1 t2 H1 H2.
    assert (∀ t, t ∈ [w "TRACE"; w "TRACE"] → t = w "TRACE") as Hsame.
    { intros t Ht. apply elem_of_cons in Ht as [->|Ht]; [done|].
      apply elem_of_cons in Ht as [->|Ht]; [done|]. by apply not_elem_of_nil in Ht. }
    by rewrite (Hsame t1 H1), (Hsame t2 H2).
Defined.

Lemma get_best_guess_singletons_witness :
  ∃ c', get_best_guess [w "CRANE"; w "TRACE"] [new_game [w "TRACE"]] ∅
        = Some (Some (w "CRANE"), c').
Proof.
  apply (get_best_guess_singletons (w "CRANE") [w "TRACE"] [new_game [w "TRACE"]] ∅).
  - repeat constructor; simpl; lia.
  - repeat constructor.
  - constructor. discriminate.
Defined.

Lemma update_games_frame_witness :
  ∃ games', update_games sample_session sample_round = Some games'
    ∧ length games' = length sample_session
    ∧ (∀ i g g', sample_session !! i = Some g → games' !! i = Some g' →
         length (correct g') = length (correct g)
         ∧ possible g' `sublist_of` possible g)
    ∧ (∀ i, length sample_round ≤ i → games' !! i = sample_session !! i)
    ∧ (∀ j feedback, sample_round !! j = Some feedback → feedback ≠ [] →
         j < length sample_session).
Proof.
  assert (∃ games', update_games sample_session sample_round = Some games')
    as [games' H] by (vm_compute; eauto).
  exists games'. split; [exact H|].
  exact (update_games_frame sample_session games' sample_round H).
Defined.

Lemma update_game_all_correct_witness :
  ∃ g', update_game sample_game (correct_feedback (w "CRANE")) = Some g'
    ∧ correct g' = w "CRANE"
    ∧ Forall (λ wd, wd = w "CRANE") (possible g').
Proof.
  apply (update_game_all_correct sample_game (w "CRANE")).
  - exact sample_game_five_letter.
  - reflexivity.
  - apply (bool_decide_unpack _). vm_compute. exact I.
Defined.

Lemma new_game_all_correct_witness :
  update_game (new_game sample_answers) (correct_feedback (w "CRANE"))
  = Some (Game (filter (λ wd, wd = w "CRANE") sample_answers) (w "CRANE") ∅ ∅).
Proof.
  apply (new_game_all_correct sample_answers (w "CRANE")).
  - repeat constructor.
  - reflexivity.
  - apply (bool_decide_unpack _). vm_compute. exact I.
Defined.

Lemma round_keeps_boards_well_formed_witness :
  ∃ games', update_games sample_session sample_round = Some games'
    ∧ Forall five_letter (clean_constraints games')
    ∧ Forall lettered (clean_constraints games')
    ∧ length (clean_constraints games') = length sample_session.
Proof.
  assert (∃ games', update_games sample_session sample_round = Some games')
    as [games' H] by (vm_compute; eauto).
  exists games'. split; [exact H|].
  apply (round_keeps_boards_well_formed sample_session games' sample_round).
  - apply Forall_replicate. exact sample_game_five_letter.
  - apply Forall_replicate. exact sample_game_lettered.
  - exact H.
Defined.

Lemma clean_constraints_leaves_witness :
  ∃ g, [clashed_game] !! 0 = Some g
    ∧ possible (clean_game clashed_game) = possible g
    ∧ correct (clean_game clashed_game) = correct g
    ∧ (∀ p, p ∈ present (clean_game clashed_game) ↔ p ∈ present g ∧ p ∉ correct g)
    ∧ (∀ a, a ∈ absent (clean_game clashed_game)
            ↔ a ∈ absent g ∧ (a ∉ correct g) ∧ (a ∉ present g))
    ∧ (∀ a, a ∈ absent (clean_game clashed_game)
            → a ∉ present (clean_game clashed_game)).
Proof.
  apply (clean_constraints_leaves [clashed_game] 0 (clean_game clashed_game)).
  reflexivity.
Defined.

Lemma first_guess_keeps_answer_witness :
  ∃ g', update_game (new_game sample_answers)
          (feedback_of (w "CRANE") [MP; MC; MC; MA; MC]) = Some g'
    ∧ w "TRACE" ∈ possible g'.
Proof.
  apply (first_guess_keeps_answer sample_answers (w "CRANE") (w "TRACE")).
  - repeat constructor.
  - reflexivity.
  - apply (bool_decide_unpack _). vm_compute. exact I.
  - apply (bool_decide_unpack _). vm_compute. exact I.
  - apply (bool_decide_unpack _). vm_compute. exact I.
  - vm_compute. reflexivity.
Defined.

Lemma load_valid_words_words_witness :
  load_valid_words None = None
  ∧ (load_valid_words (Some sample_lines) = None
     ↔ Forall (λ line, length (strip line) ≠ 5) sample_lines)
  ∧ ∀ words, load_valid_words (Some sample_lines) = Some words →
      words ≠ []
      ∧ words = (λ line, upper (strip line))
                  <$> filter (λ line, length (strip line) = 5) sample_lines
      ∧ Forall (λ wd : word, length wd = 5
                  ∧ Forall (λ c, is_lower c = false) wd) words.
Proof. apply (load_valid_words_words sample_lines). exact sample_lines_ascii. Defined.

Lemma load_valid_words_again_witness :
  load_valid_words (Some [w "CRANE"; w "TRACE"; w "REACT"])
  = Some [w "CRANE"; w "TRACE"; w "REACT"].
Proof.
  apply (load_valid_words_again sample_lines).
  - exact sample_lines_ascii.
  - vm_compute. reflexivity.
Defined.

Lemma init_session_witness :
  games (Solver [w "CRANE"; w "TRACE"; w "REACT"] [w "CRANE"; w "TRACE"; w "REACT"]
           (new_session [w "CRANE"; w "TRACE"; w "REACT"]))
  = replicate 16 (Game [w "CRANE"; w "TRACE"; w "REACT"] (replicate 5 unknown) ∅ ∅)
  ∧ Forall five_letter (new_session [w "CRANE"; w "TRACE"; w "REACT"])
  ∧ Forall (λ wd : word, length wd = 5) [w "CRANE"; w "TRACE"; w "REACT"]
  ∧ ((None : option (option (list (list ascii)))) = None →
     [w "CRANE"; w "TRACE"; w "REACT"] = [w "CRANE"; w "TRACE"; w "REACT"]).
Proof.
  apply (init_session sample_lines None
           (Solver [w "CRANE"; w "TRACE"; w "REACT"] [w "CRANE"; w "TRACE"; w "REACT"]
              (new_session [w "CRANE"; w "TRACE"; w "REACT"]))).
  - exact sample_lines_ascii.
  - discriminate.
  - vm_compute. reflexivity.
Defined.

Lemma get_feedback_input_well_formed_witness :
  (∃ skipped typed, [w "cpa"; w "c p a a p"; w "AAAAA"] = skipped ++ typed :: [w "AAAAA"]
     ∧ Forall (λ t, read_feedback (w "CRANE") t = None) skipped
     ∧ read_feedback (w "CRANE") typed = Some (Some (fb "CRANE" "CPAAP")))
  ∧ ∀ fb', Some (fb "CRANE" "CPAAP") = Some fb' →
      length fb' = length (w "CRANE") `min` 5
      ∧ (∀ j a c, fb' !! j = Some (a, c) →
           w "CRANE" !! j = Some a ∧ c ∈ w "CPA")
      ∧ ∀ g, length (correct g) = 5 → is_Some (record_feedback 0 fb' g).
Proof.
  apply (get_feedback_input_well_formed (w "CRANE")
           [w "cpa"; w "c p a a p"; w "AAAAA"] [w "AAAAA"]).
  vm_compute. reflexivity.
Defined.

Lemma play_round_returns_witness :
  ∃ go games' c',
    play_round sample_answers sample_session sample_inputs ∅
    = Some ((go, games', drop (length (active_from 0 sample_session)) sample_inputs), c').
Proof.
  apply (play_round_returns sample_answers sample_session sample_inputs ∅).
  - reflexivity.
  - apply Forall_replicate. exact sample_game_five_letter.
  - discriminate.
  - repeat constructor.
  - exact sample_inputs_accepted.
  - simpl. lia.
Defined.

Lemma sample_round_played :
  ∃ go games' inputs' c',
    play_round sample_answers sample_session sample_inputs ∅
    = Some ((go, games', inputs'), c').
Proof.
  destruct (play_round_total sample_answers sample_session sample_inputs ∅)
    as (go & games' & c' & H).
  - reflexivity.
  - apply Forall_replicate. exact sample_game_five_letter.
  - discriminate.
  - repeat constructor.
  - exact sample_inputs_accepted.
  - simpl. lia.
  - eauto.
Qed.

Lemma play_round_monotone_witness :
  ∃ go games' inputs' c',
    play_round sample_answers sample_session sample_inputs ∅
    = Some ((go, games', inputs'), c')
    ∧ length games' = length sample_session
    ∧ (∀ i g g', sample_session !! i = Some g → games' !! i = Some g' →
         length (correct g') = length (correct g)
         ∧ possible g' `sublist_of` possible g)
    ∧ inputs' `suffix_of` sample_inputs
    ∧ (go = true → Exists (λ g, possible g ≠ []) games').
Proof.
  destruct sample_round_played as (go & games' & inputs' & c' & H).
  exists go, games', inputs', c'. split; [exact H|].
  exact (play_round_monotone _ _ _ _ _ _ _ _ H).
Defined.

Lemma solved_entry_empties_board_witness :
  ∃ go games' inputs' c',
    play_round sample_answers sample_session sample_inputs ∅
    = Some ((go, games', inputs'), c')
    ∧ ∃ g', games' !! 0 = Some g' ∧ possible g' = [].
Proof.
  destruct sample_round_played as (go & games' & inputs' & c' & H).
  exists go, games', inputs', c'. split; [exact H|].
  apply (solved_entry_empties_board sample_answers sample_session games'
           sample_inputs inputs' ∅ c' go 0 0 (w "solved")).
  - discriminate.
  - repeat constructor.
  - exact sample_inputs_accepted.
  - exact H.
  - reflexivity.
  - reflexivity.
  - vm_compute. reflexivity.
Defined.

Lemma main_returns_witness :
  is_Some (main (Some sample_lines) (replicate 336 (w "AAAAA"))).
Proof.
  apply (main_returns sample_lines (w "REACT")).
  - exact sample_lines_ascii.
  - apply (bool_decide_unpack _). vm_compute. exact I.
  - vm_compute. reflexivity.
  - apply Forall_replicate. by eexists; vm_compute.
  - rewrite length_replicate. lia.
Defined.

Lemma main_keeps_sublists_witness :
  ∃ games' rest,
    main (Some sample_lines) (replicate 336 (w "AAAAA")) = Some (games', rest)
    ∧ ∃ loaded, load_valid_words (Some sample_lines) = Some loaded
        ∧ length games' = 16
        ∧ Forall (λ g, possible g `sublist_of` loaded ∧ length (correct g) = 5) games'
        ∧ rest `suffix_of` replicate 336 (w "AAAAA").
Proof.
  destruct (main_total (Some sample_lines) (replicate 336 (w "AAAAA"))
              [w "CRANE"; w "TRACE"; w "REACT"]) as [[games' rest] H].
  - vm_compute. reflexivity.
  - apply Forall_replicate. by eexists; vm_compute.
  - rewrite length_replicate. lia.
  - exists games', rest. split; [exact H|].
    exact (main_keeps_sublists _ _ _ _ sample_lines_ascii H).
Defined.

End more_examples.
